(** * pySim/javacard.py: CAP archives and the IJC splitter

    A shallow embedding of [ijc_to_cap] and of the class [CapFile]
    (construction from a zip archive, [get_loadfile], [get_loadfile_aid],
    [get_applet_aid]), with the properties of the byte layout, of the
    component classification and of the error behaviour.

    Python exceptions are values of [exn]; a call that may raise lives in
    ExtLib's error monad [sum exn] ([inl e] = raised [e], [inr v] =
    returned [v]).  The [construct] declarations of the Header and Applet
    components are parsers in [stateT bytes (sum exn)], the state being the
    unread rest of the stream. *)

From Stdlib Require Import List String Ascii ZArith Bool Lia.
From Stdlib Require Import Strings.Byte.
From ExtLib Require Import Structures.Monad Structures.MonadState
  Structures.MonadExc Data.Monads.StateMonad Data.Monads.EitherMonad.
Import ListNotations.
Import MonadNotation.
#[local] Open Scope monad_scope.
#[local] Open Scope string_scope.
#[local] Open Scope Z_scope.
#[local] Existing Instance Monad_stateT.

(** ** Python values used by the module *)

(** A [bytes] object. *)
Definition bytes := list byte.

(** The texts of the [ValueError]s the module raises; the arguments are the
    values substituted into the format string. *)
Inductive message :=
| component_missing (name : string)
    (** ["invalid cap file, " ++ name ++ " missing!"] *)
| lacks_magic_number (magic : Z)
    (** ["invalid cap file, COMPONENT_Header lacks magic number
         (0x%08X!=0xDECAFFED)!" % magic] *)
| lacks_applet_component
    (** ["can't get the AID, this cap file lacks the optional
         COMPONENT_Applet component!"] *)
| applet_index (index count : Z).
    (** ["can't get the AID for applet with index=%u, this .cap file only
         has %u applets!" % (index, count)] *)

(** The exceptions that the modelled code can raise. *)
Inductive exn :=
| ValueError (msg : message)
| IndexError      (** list index out of range *)
| KeyError        (** [ZipFile.read] of a name the archive does not have *)
| TypeError       (** [bytes + None], [b2h(None)] *)
| struct_error    (** [struct.unpack]: buffer of the wrong size *)
| StreamError.    (** [construct]: the stream ended inside a field *)

(** The value of a byte as a Python [int]. *)
Definition int_of_byte (x : byte) : Z := Z.of_N (Byte.to_N x).

(** The byte of an [int] in [range(256)]. *)
Definition byte_of_int (z : Z) : byte :=
  match Byte.of_N (Z.to_N z) with Some x => x | None => x00 end.

(** [l[i]] on a Python list: a negative index counts from the end, an
    index outside [-len(l) <= i < len(l)] raises [IndexError]. *)
Definition getitem {A : Type} (l : list A) (i : Z) : exn + A :=
  let n := Z.of_nat (List.length l) in
  let j := if i <? 0 then i + n else i in
  if j <? 0 then inl IndexError
  else match nth_error l (Z.to_nat j) with
       | Some x => inr x
       | None => inl IndexError
       end.

(** [b[0:n]] and [b[n:]] for [n >= 0]: slices never raise, they stop at the
    end of [b]. *)
Definition slice_to (b : bytes) (n : Z) : bytes := firstn (Z.to_nat n) b.
Definition slice_from (b : bytes) (n : Z) : bytes := skipn (Z.to_nat n) b.

(** [struct.unpack('!BH', buf)]: an unsigned byte and a big-endian unsigned
    16-bit integer; the buffer must hold exactly three bytes. *)
Definition unpack_BH (buf : bytes) : exn + (Z * Z) :=
  match buf with
  | [t; hi; lo] => inr (int_of_byte t, int_of_byte hi * 256 + int_of_byte lo)
  | _ => inl struct_error
  end.

(** [str.lower()].  Entry names are strings of 8-bit characters, and only
    the letters A-Z are changed: no other character lowers to one of the
    characters of the component suffixes, so that whether a lowered name
    ends in a suffix is not affected. *)
Definition lower_ascii (c : ascii) : ascii :=
  let n := nat_of_ascii c in
  if (65 <=? n)%nat && (n <=? 90)%nat then ascii_of_nat (n + 32) else c.

Fixpoint lower (s : string) : string :=
  match s with
  | EmptyString => EmptyString
  | String c s' => String (lower_ascii c) (lower s')
  end.

(** [s.endswith(suffix)]. *)
Fixpoint starts_with (p l : list ascii) : bool :=
  match p, l with
  | [], _ => true
  | a :: p', b :: l' => Ascii.eqb a b && starts_with p' l'
  | _ :: _, [] => false
  end.

Definition endswith (s suffix : string) : bool :=
  starts_with (rev (list_ascii_of_string suffix)) (rev (list_ascii_of_string s)).

(** ** [osmocom.utils.b2h] *)

Definition hexdigit (n : N) : ascii :=
  match n with
  | 0 => "0" | 1 => "1" | 2 => "2" | 3 => "3" | 4 => "4" | 5 => "5"
  | 6 => "6" | 7 => "7" | 8 => "8" | 9 => "9" | 10 => "a" | 11 => "b"
  | 12 => "c" | 13 => "d" | 14 => "e" | _ => "f"
  end%N%char.

(** Modelled from the spec: [b2h] of [osmocom.utils] is not part of this
    repository; the spec describes it as "byte sequence -> lowercase hex
    string", two digits per byte. *)
Fixpoint b2h (b : bytes) : string :=
  match b with
  | [] => EmptyString
  | x :: b' =>
      String (hexdigit (Byte.to_N x / 16))
        (String (hexdigit (Byte.to_N x mod 16)) (b2h b'))
  end.

(** ** [zipfile.ZipFile] *)

(** An archive is the sequence of its entries, in the order they were
    written.  [namelist] lists the names in that order, [read] returns the
    data of the entry a name denotes (the last one written under it), and
    [writestr] appends an entry. *)
Definition ZipFile := list (string * bytes).

Definition namelist (z : ZipFile) : list string := map fst z.

Fixpoint read (z : ZipFile) (name : string) : exn + bytes :=
  match z with
  | [] => inl KeyError
  | (n, data) :: z' =>
      match read z' name with
      | inr later => inr later
      | inl _ => if String.eqb n name then inr data else inl KeyError
      end
  end.

Definition writestr (z : ZipFile) (name : string) (data : bytes) : ZipFile :=
  (z ++ [(name, data)])%list.

(** ** [ijc_to_cap] *)

Definition TAGS : list string :=
  ["Header"; "Directory"; "Applet"; "Import"; "ConstantPool"; "Class";
   "Method"; "StaticField"; "RefLocation"; "Export"; "Descriptor"; "Debug"].

(** The [while len(b):] loop.  The archive is threaded through and is
    returned also when an exception ends the loop, since the entries written
    before stay written.  [fuel] bounds the number of iterations; [None]
    means that the bound was reached with bytes left. *)
Fixpoint ijc_loop (fuel : nat) (b : bytes) (out_zip : ZipFile) (p : string)
  : option (ZipFile * (exn + unit)) :=
  match b with
  | [] => Some (out_zip, inr tt)
  | _ :: _ =>
      match fuel with
      | O => None
      | S fuel' =>
          match unpack_BH (slice_to b 3) with
          | inl e => Some (out_zip, inl e)
          | inr (tag, size) =>
              match getitem TAGS (tag - 1) with
              | inl e => Some (out_zip, inl e)
              | inr name =>
                  ijc_loop fuel' (slice_from b (3 + size))
                    (writestr out_zip (p ++ "/javacard/" ++ name ++ ".cap")
                       (slice_to b (3 + size)))
                    p
              end
          end
      end
  end.

(** [ijc_to_cap(in_file, out_zip, p)], [in_file] given by the bytes that
    [in_file.read()] returns.  Every iteration removes at least one byte, so
    [length b] iterations are enough. *)
Definition ijc_to_cap (in_file : bytes) (out_zip : ZipFile) (p : string)
  : option (ZipFile * (exn + unit)) :=
  ijc_loop (List.length in_file) in_file out_zip p.

(** ** The [construct] declarations *)

(** A [Construct A] parses an [A] from the front of the stream and leaves
    the rest; reading past the end raises [StreamError]. *)
Definition Construct (A : Type) : Type := stateT bytes (sum exn) A.

#[export] Instance Monad_Construct : Monad Construct :=
  @Monad_stateT bytes (sum exn) _.

Definition stream_read (n : nat) : Construct bytes :=
  mkStateT (fun s : bytes =>
    if (List.length s <? n)%nat then inl StreamError
    else inr (firstn n s, skipn n s)).

(** An unsigned big-endian integer. *)
Definition int_from_bytes (b : bytes) : Z :=
  fold_left (fun acc x => acc * 256 + int_of_byte x) b 0.

Definition Int8ub : Construct Z := b <- stream_read 1 ;; ret (int_from_bytes b).
Definition Int16ub : Construct Z := b <- stream_read 2 ;; ret (int_from_bytes b).
Definition Int32ub : Construct Z := b <- stream_read 4 ;; ret (int_from_bytes b).

(** Modelled from the spec: [LV] of [osmocom.construct] is not part of this
    repository; the spec describes it as "1-byte length + that many bytes",
    failing when fewer bytes remain. *)
Definition LV : Construct bytes :=
  n <- Int8ub ;; stream_read (Z.to_nat n).

(** [construct.Optional(subcon)]: the value of [subcon], or [None] with the
    stream put back where it was when [subcon] fails. *)
Definition COptional {A : Type} (subcon : Construct A) : Construct (option A) :=
  mkStateT (fun s : bytes =>
    match runStateT subcon s with
    | inr (v, rest) => inr (Some v, rest)
    | inl _ => inr (None, s)
    end).

(** [construct.Array(count, subcon)]. *)
Fixpoint Array {A : Type} (count : nat) (subcon : Construct A)
  : Construct (list A) :=
  match count with
  | O => ret []
  | S count' =>
      x <- subcon ;; xs <- Array count' subcon ;; ret (x :: xs)
  end.

(** [c.parse(data)]: the value parsed from the front of [data]; bytes left
    over are ignored.  [data = None] parses like the empty stream. *)
Definition parse {A : Type} (c : Construct A) (data : option bytes) : exn + A :=
  r <- runStateT c (match data with Some b => b | None => [] end) ;;
  ret (fst r).

Module Package.
Record t := mk
  { minor_version : Z; major_version : Z; AID : bytes }.
End Package.

Module Header.
Record t := mk
  { tag : Z; size : Z; magic : Z; minor_version : Z; major_version : Z;
    flags : Z; package : Package.t; package_name : option bytes }.
End Header.

Module AppletEntry.
Record t := mk { AID : bytes; install_method_offset : Z }.
End AppletEntry.

Module Applet.
Record t := mk
  { tag : Z; size : Z; count : Z; applets : list AppletEntry.t }.
End Applet.

Definition package_info : Construct Package.t :=
  minor_version <- Int8ub ;;
  major_version <- Int8ub ;;
  AID <- LV ;;
  ret (Package.mk minor_version major_version AID).

(** [CapFile.__header_component_compact] *)
Definition header_component_compact : Construct Header.t :=
  tag <- Int8ub ;;
  size <- Int16ub ;;
  magic <- Int32ub ;;
  minor_version <- Int8ub ;;
  major_version <- Int8ub ;;
  flags <- Int8ub ;;
  package <- package_info ;;
  package_name <- COptional LV ;;
  ret (Header.mk tag size magic minor_version major_version flags package
         package_name).

Definition applet_entry : Construct AppletEntry.t :=
  AID <- LV ;;
  install_method_offset <- Int16ub ;;
  ret (AppletEntry.mk AID install_method_offset).

(** [CapFile.__applet_component_compact] *)
Definition applet_component_compact : Construct Applet.t :=
  tag <- Int8ub ;;
  size <- Int16ub ;;
  count <- Int8ub ;;
  applets <- Array (Z.to_nat count) applet_entry ;;
  ret (Applet.mk tag size count applets).

(** ** [class CapFile] *)

(** The twelve attributes; [None] is the class default. *)
Record CapFile := mkCapFile
  { component_header : option bytes;
    component_directory : option bytes;
    component_applet : option bytes;
    component_import : option bytes;
    component_constantPool : option bytes;
    component_class : option bytes;
    component_method : option bytes;
    component_staticField : option bytes;
    component_referenceLocation : option bytes;
    component_export : option bytes;
    component_descriptor : option bytes;
    component_debug : option bytes }.

Definition class_defaults : CapFile :=
  mkCapFile None None None None None None None None None None None None.

(** The assignments [self.__component_x = v]. *)
Definition set_header v '(mkCapFile _ d a i cp c m sf rl e de db) :=
  mkCapFile v d a i cp c m sf rl e de db.
Definition set_directory v '(mkCapFile h _ a i cp c m sf rl e de db) :=
  mkCapFile h v a i cp c m sf rl e de db.
Definition set_applet v '(mkCapFile h d _ i cp c m sf rl e de db) :=
  mkCapFile h d v i cp c m sf rl e de db.
Definition set_import v '(mkCapFile h d a _ cp c m sf rl e de db) :=
  mkCapFile h d a v cp c m sf rl e de db.
Definition set_constantPool v '(mkCapFile h d a i _ c m sf rl e de db) :=
  mkCapFile h d a i v c m sf rl e de db.
Definition set_class v '(mkCapFile h d a i cp _ m sf rl e de db) :=
  mkCapFile h d a i cp v m sf rl e de db.
Definition set_method v '(mkCapFile h d a i cp c _ sf rl e de db) :=
  mkCapFile h d a i cp c v sf rl e de db.
Definition set_staticField v '(mkCapFile h d a i cp c m _ rl e de db) :=
  mkCapFile h d a i cp c m v rl e de db.
Definition set_referenceLocation v '(mkCapFile h d a i cp c m sf _ e de db) :=
  mkCapFile h d a i cp c m sf v e de db.
Definition set_export v '(mkCapFile h d a i cp c m sf rl _ de db) :=
  mkCapFile h d a i cp c m sf rl v de db.
Definition set_descriptor v '(mkCapFile h d a i cp c m sf rl e _ db) :=
  mkCapFile h d a i cp c m sf rl e v db.
Definition set_debug v '(mkCapFile h d a i cp c m sf rl e de _) :=
  mkCapFile h d a i cp c m sf rl e de v.

(** The body of the [for] loop of [__init__]: one entry name. *)
Definition classify (cap : ZipFile) (self : CapFile) (filename : string)
  : exn + CapFile :=
  if endswith (lower filename) "header.cap" then
    data <- read cap filename ;; ret (set_header (Some data) self)
  else if endswith (lower filename) "directory.cap" then
    data <- read cap filename ;; ret (set_directory (Some data) self)
  else if endswith (lower filename) "applet.cap" then
    data <- read cap filename ;; ret (set_applet (Some data) self)
  else if endswith (lower filename) "import.cap" then
    data <- read cap filename ;; ret (set_import (Some data) self)
  else if endswith (lower filename) "constantpool.cap" then
    data <- read cap filename ;; ret (set_constantPool (Some data) self)
  else if endswith (lower filename) "class.cap" then
    data <- read cap filename ;; ret (set_class (Some data) self)
  else if endswith (lower filename) "method.cap" then
    data <- read cap filename ;; ret (set_method (Some data) self)
  else if endswith (lower filename) "staticfield.cap" then
    data <- read cap filename ;; ret (set_staticField (Some data) self)
  else if endswith (lower filename) "reflocation.cap" then
    data <- read cap filename ;; ret (set_referenceLocation (Some data) self)
  else if endswith (lower filename) "export.cap" then
    data <- read cap filename ;; ret (set_export (Some data) self)
  else if endswith (lower filename) "descriptor.cap" then
    data <- read cap filename ;; ret (set_descriptor (Some data) self)
  else if endswith (lower filename) "debug.cap" then
    data <- read cap filename ;; ret (set_debug (Some data) self)
  else ret self.

(** A [for] loop whose body may raise. *)
Fixpoint for_each {S A : Type} (body : S -> A -> exn + S) (l : list A) (s : S)
  : exn + S :=
  match l with
  | [] => ret s
  | x :: l' => s' <- body s x ;; for_each body l' s'
  end.

Definition is_None {A : Type} (o : option A) : bool :=
  match o with None => true | Some _ => false end.

(** [CapFile(filename)], the archive given by its entries.  An exception
    leaves no object behind. *)
Definition CapFile_init (cap : ZipFile) : exn + CapFile :=
  self <- for_each (classify cap) (namelist cap) class_defaults ;;
  if is_None (component_header self) then
    raise (ValueError (component_missing "COMPONENT_Header"))
  else if is_None (component_directory self) then
    raise (ValueError (component_missing "COMPONENT_Directory"))
  else if is_None (component_import self) then
    raise (ValueError (component_missing "COMPONENT_Import"))
  else if is_None (component_constantPool self) then
    raise (ValueError (component_missing "COMPONENT_ConstantPool"))
  else if is_None (component_class self) then
    raise (ValueError (component_missing "COMPONENT_Class"))
  else if is_None (component_method self) then
    raise (ValueError (component_missing "COMPONENT_Method"))
  else if is_None (component_staticField self) then
    raise (ValueError (component_missing "COMPONENT_StaticField"))
  else if is_None (component_referenceLocation self) then
    raise (ValueError (component_missing "COMPONENT_ReferenceLocation"))
  else if is_None (component_descriptor self) then
    raise (ValueError (component_missing "COMPONENT_Descriptor"))
  else ret self.

(** What a method returns: [bytes] or [str]. *)
Inductive value :=
| Bytes (b : bytes)
| Str (s : string).

(** [a += b] on attributes holding [bytes] or [None]. *)
Definition iadd (a b : option bytes) : exn + option bytes :=
  match a, b with
  | Some x, Some y => inr (Some (x ++ y)%list)
  | _, _ => inl TypeError
  end.

(** The truth value of [bytes] or [None]: [None] and [b''] are false. *)
Definition truthy (o : option bytes) : bool :=
  match o with
  | Some (_ :: _) => true
  | _ => false
  end.

Definition get_loadfile (self : CapFile) : exn + value :=
  let loadfile := component_header self in
  loadfile <- iadd loadfile (component_directory self) ;;
  loadfile <- iadd loadfile (component_import self) ;;
  loadfile <- (if truthy (component_applet self)
               then iadd loadfile (component_applet self)
               else ret loadfile) ;;
  loadfile <- iadd loadfile (component_class self) ;;
  loadfile <- iadd loadfile (component_method self) ;;
  loadfile <- iadd loadfile (component_staticField self) ;;
  loadfile <- (if truthy (component_export self)
               then iadd loadfile (component_export self)
               else ret loadfile) ;;
  loadfile <- iadd loadfile (component_constantPool self) ;;
  loadfile <- iadd loadfile (component_referenceLocation self) ;;
  loadfile <- (if truthy (component_descriptor self)
               then iadd loadfile (component_descriptor self)
               else ret loadfile) ;;
  match loadfile with
  | Some b => ret (Str (b2h b))
  | None => raise TypeError
  end.

Definition get_loadfile_aid (self : CapFile) : exn + bytes :=
  header <- parse header_component_compact (component_header self) ;;
  let magic := if Header.magic header =? 0 then 0 else Header.magic header in
  if negb (magic =? 0xDECAFFED) then
    raise (ValueError (lacks_magic_number magic))
  else ret (Package.AID (Header.package header)).

Definition get_applet_aid (self : CapFile) (index : Z) : exn + bytes :=
  if is_None (component_applet self) then
    raise (ValueError lacks_applet_component)
  else
    applet <- parse applet_component_compact (component_applet self) ;;
    if index >? Applet.count applet then
      raise (ValueError (applet_index index (Applet.count applet)))
    else
      entry <- getitem (Applet.applets applet) index ;;
      ret (AppletEntry.AID entry).

(** ** The vocabulary of the specification *)

(** The twelve components of a CAP file. *)
Inductive Component :=
| COMPONENT_Header | COMPONENT_Directory | COMPONENT_Applet
| COMPONENT_Import | COMPONENT_ConstantPool | COMPONENT_Class
| COMPONENT_Method | COMPONENT_StaticField | COMPONENT_ReferenceLocation
| COMPONENT_Export | COMPONENT_Descriptor | COMPONENT_Debug.

Definition all_components : list Component :=
  [COMPONENT_Header; COMPONENT_Directory; COMPONENT_Applet; COMPONENT_Import;
   COMPONENT_ConstantPool; COMPONENT_Class; COMPONENT_Method;
   COMPONENT_StaticField; COMPONENT_ReferenceLocation; COMPONENT_Export;
   COMPONENT_Descriptor; COMPONENT_Debug].

(** The Component Table of the specification: tag and name. *)
Definition component_tag (c : Component) : Z :=
  match c with
  | COMPONENT_Header => 1 | COMPONENT_Directory => 2 | COMPONENT_Applet => 3
  | COMPONENT_Import => 4 | COMPONENT_ConstantPool => 5 | COMPONENT_Class => 6
  | COMPONENT_Method => 7 | COMPONENT_StaticField => 8
  | COMPONENT_ReferenceLocation => 9 | COMPONENT_Export => 10
  | COMPONENT_Descriptor => 11 | COMPONENT_Debug => 12
  end.

Definition component_name (c : Component) : string :=
  match c with
  | COMPONENT_Header => "Header" | COMPONENT_Directory => "Directory"
  | COMPONENT_Applet => "Applet" | COMPONENT_Import => "Import"
  | COMPONENT_ConstantPool => "ConstantPool" | COMPONENT_Class => "Class"
  | COMPONENT_Method => "Method" | COMPONENT_StaticField => "StaticField"
  | COMPONENT_ReferenceLocation => "RefLocation"
  | COMPONENT_Export => "Export" | COMPONENT_Descriptor => "Descriptor"
  | COMPONENT_Debug => "Debug"
  end.

Definition mandatory (c : Component) : bool :=
  match c with
  | COMPONENT_Applet | COMPONENT_Export | COMPONENT_Debug => false
  | _ => true
  end.

(** The name a missing mandatory component is reported under. *)
Definition reported_name (c : Component) : string :=
  match c with
  | COMPONENT_Header => "COMPONENT_Header"
  | COMPONENT_Directory => "COMPONENT_Directory"
  | COMPONENT_Applet => "COMPONENT_Applet"
  | COMPONENT_Import => "COMPONENT_Import"
  | COMPONENT_ConstantPool => "COMPONENT_ConstantPool"
  | COMPONENT_Class => "COMPONENT_Class"
  | COMPONENT_Method => "COMPONENT_Method"
  | COMPONENT_StaticField => "COMPONENT_StaticField"
  | COMPONENT_ReferenceLocation => "COMPONENT_ReferenceLocation"
  | COMPONENT_Export => "COMPONENT_Export"
  | COMPONENT_Descriptor => "COMPONENT_Descriptor"
  | COMPONENT_Debug => "COMPONENT_Debug"
  end.

(** The component whose tag is [tag]. *)
Definition component_of_tag (tag : Z) : option Component :=
  find (fun c => component_tag c =? tag) all_components.

(** The name the Component Table assigns to [tag]. *)
Definition table_name (tag : Z) : string :=
  match component_of_tag tag with
  | Some c => component_name c
  | None => EmptyString
  end.

(** The slot of a component in the archive object. *)
Definition slot (c : Component) (self : CapFile) : option bytes :=
  match c with
  | COMPONENT_Header => component_header self
  | COMPONENT_Directory => component_directory self
  | COMPONENT_Applet => component_applet self
  | COMPONENT_Import => component_import self
  | COMPONENT_ConstantPool => component_constantPool self
  | COMPONENT_Class => component_class self
  | COMPONENT_Method => component_method self
  | COMPONENT_StaticField => component_staticField self
  | COMPONENT_ReferenceLocation => component_referenceLocation self
  | COMPONENT_Export => component_export self
  | COMPONENT_Descriptor => component_descriptor self
  | COMPONENT_Debug => component_debug self
  end.

Definition store (c : Component) (v : option bytes) (self : CapFile) : CapFile :=
  match c with
  | COMPONENT_Header => set_header v self
  | COMPONENT_Directory => set_directory v self
  | COMPONENT_Applet => set_applet v self
  | COMPONENT_Import => set_import v self
  | COMPONENT_ConstantPool => set_constantPool v self
  | COMPONENT_Class => set_class v self
  | COMPONENT_Method => set_method v self
  | COMPONENT_StaticField => set_staticField v self
  | COMPONENT_ReferenceLocation => set_referenceLocation v self
  | COMPONENT_Export => set_export v self
  | COMPONENT_Descriptor => set_descriptor v self
  | COMPONENT_Debug => set_debug v self
  end.

(** An entry name matches a component when it ends, letter case ignored, in
    the component's name followed by [".cap"]. *)
Definition matches (c : Component) (filename : string) : bool :=
  endswith (lower filename) (lower (component_name c ++ ".cap")).

(** The entry name in [namelist] order that is classified last as [c]. *)
Fixpoint last_match (c : Component) (names : list string) : option string :=
  match names with
  | [] => None
  | n :: names' =>
      match last_match c names' with
      | Some n' => Some n'
      | None => if matches c n then Some n else None
      end
  end.

(** The bytes of a slot that may be empty. *)
Definition present (o : option bytes) : bytes :=
  match o with Some b => b | None => [] end.

(** A record of an IJC stream: a tag and a payload. *)
Record ijc_record := mk_record { rec_tag : Z; rec_payload : bytes }.

Definition rec_size (r : ijc_record) : Z := Z.of_nat (List.length (rec_payload r)).

(** A tag in 1..12 and a payload whose length fits the two size bytes. *)
Definition well_formed (r : ijc_record) : Prop :=
  1 <= rec_tag r <= 12 /\ rec_size r < 65536.

(** The bytes of a record: tag, big-endian size, payload. *)
Definition encode (r : ijc_record) : bytes :=
  byte_of_int (rec_tag r) :: byte_of_int (rec_size r / 256)
    :: byte_of_int (rec_size r mod 256) :: rec_payload r.

Definition entry_name (p name : string) : string :=
  p ++ "/javacard/" ++ name ++ ".cap".

(** The archive entry a record is emitted as. *)
Definition emitted (p : string) (r : ijc_record) : string * bytes :=
  (entry_name p (table_name (rec_tag r)), encode r).

(** The data an archive holds under a name, [None] when it has none. *)
Definition entry_data (cap : ZipFile) (name : string) : option bytes :=
  match read cap name with inr data => Some data | inl _ => None end.

(** What classification leaves in the slot of [c]: the data of the last
    matching name, [None] when no name matches. *)
Definition classified (cap : ZipFile) (c : Component) : option bytes :=
  match last_match c (namelist cap) with
  | Some n => entry_data cap n
  | None => None
  end.

(** The mandatory components, in the order [__init__] checks them. *)
Definition check_order : list Component :=
  [COMPONENT_Header; COMPONENT_Directory; COMPONENT_Import;
   COMPONENT_ConstantPool; COMPONENT_Class; COMPONENT_Method;
   COMPONENT_StaticField; COMPONENT_ReferenceLocation; COMPONENT_Descriptor].

Definition first_missing (self : CapFile) : option Component :=
  find (fun c => is_None (slot c self)) check_order.

(** The load order of the specification; Debug is not in it. *)
Definition loadfile_order : list Component :=
  [COMPONENT_Header; COMPONENT_Directory; COMPONENT_Import; COMPONENT_Applet;
   COMPONENT_Class; COMPONENT_Method; COMPONENT_StaticField; COMPONENT_Export;
   COMPONENT_ConstantPool; COMPONENT_ReferenceLocation; COMPONENT_Descriptor].

(** The concatenation of the components that are present, in load order. *)
Definition loadfile_bytes (self : CapFile) : bytes :=
  List.concat (map (fun c => present (slot c self)) loadfile_order).

(** The value of a hexadecimal digit, and the bytes of a hex string. *)
Definition unhex (c : ascii) : N :=
  let n := N_of_ascii c in
  if (n <? 58)%N then (n - 48)%N else (n - 87)%N.

Fixpoint h2b (s : string) : bytes :=
  match s with
  | String hi (String lo s') =>
      byte_of_int (Z.of_N (unhex hi * 16 + unhex lo)) :: h2b s'
  | _ => []
  end.

(** The Header declaration without its last field: the fields up to
    [package], the stream being left at the bytes that follow the package
    sub-record. *)
Definition header_up_to_package : Construct (option bytes -> Header.t) :=
  tag <- Int8ub ;;
  size <- Int16ub ;;
  magic <- Int32ub ;;
  minor_version <- Int8ub ;;
  major_version <- Int8ub ;;
  flags <- Int8ub ;;
  package <- package_info ;;
  ret (Header.mk tag size magic minor_version major_version flags package).

(** The bytes start with a whole LV field: a length byte and at least as
    many bytes behind it. *)
Definition holds_LV (rest : bytes) : bool :=
  match rest with
  | [] => false
  | n :: r => (Z.to_nat (int_of_byte n) <=? List.length r)%nat
  end.

(** ** Sample data *)

(** A Header component: magic, CAP format 2.2, no flags, package 1.0 with
    the AID [a000000062]. *)
Definition sample_header : bytes :=
  [x01; x00; x0f; xde; xca; xff; xed; x02; x02; x00;
   x00; x01; x05; xa0; x00; x00; x00; x62].

(** An Applet component with one applet, AID [a00000006201], whose install
    method is at offset 16. *)
Definition sample_applet : bytes :=
  [x03; x00; x0a; x01; x06; xa0; x00; x00; x00; x62; x01; x00; x10].

(** An archive as a converter writes it: the components of a package
    [foo], with the manifest, which is no component. *)
Definition sample_archive : ZipFile :=
  [("META-INF/MANIFEST.MF", [x4d; x61]);
   ("FOO/javacard/Header.cap", sample_header);
   ("foo/javacard/Directory.cap", [x02; x00; x01; xd1]);
   ("foo/javacard/Applet.cap", sample_applet);
   ("foo/javacard/Import.cap", [x04; x00; x01; xd4]);
   ("foo/javacard/ConstantPool.cap", [x05; x00; x01; xd5]);
   ("foo/javacard/Class.cap", [x06; x00; x01; xd6]);
   ("foo/javacard/Method.cap", [x07; x00; x01; xd7]);
   ("foo/javacard/StaticField.cap", [x08; x00; x01; xd8]);
   ("foo/javacard/RefLocation.cap", [x09; x00; x01; xd9]);
   ("foo/javacard/Descriptor.cap", [x0b; x00; x01; xdb]);
   ("foo/javacard/Debug.cap", [x0c; x00; x01; xdc])].

(** The same archive without its Import component. *)
Definition archive_without_import : ZipFile :=
  filter (fun e => negb (matches COMPONENT_Import (fst e))) sample_archive.

(** The same archive with a Descriptor entry of no bytes. *)
Definition archive_empty_descriptor : ZipFile :=
  map (fun e => if matches COMPONENT_Descriptor (fst e) then (fst e, [])
                else e)
    sample_archive.

(** The object constructed from the sample archive. *)
Definition sample_capfile : CapFile :=
  mkCapFile (Some sample_header) (Some [x02; x00; x01; xd1])
    (Some sample_applet) (Some [x04; x00; x01; xd4])
    (Some [x05; x00; x01; xd5]) (Some [x06; x00; x01; xd6])
    (Some [x07; x00; x01; xd7]) (Some [x08; x00; x01; xd8])
    (Some [x09; x00; x01; xd9]) None (Some [x0b; x00; x01; xdb])
    (Some [x0c; x00; x01; xdc]).

(** The decoded Header of the sample. *)
Definition sample_header_record : Header.t :=
  Header.mk 1 15 0xDECAFFED 2 2 0
    (Package.mk 0 1 [xa0; x00; x00; x00; x62]) None.

(** The sample object with a Header whose magic is [cafeffed]. *)
Definition capfile_wrong_magic : CapFile :=
  set_header
    (Some (x01 :: x00 :: x0f :: xca :: xfe :: skipn 5 sample_header))
    sample_capfile.

Definition wrong_magic_record : Header.t :=
  Header.mk 1 15 0xCAFEFFED 2 2 0
    (Package.mk 0 1 [xa0; x00; x00; x00; x62]) None.

(** Two records: an empty Header and a Class with two payload bytes. *)
Definition sample_records : list ijc_record :=
  [mk_record 1 []; mk_record 6 [xaa; xbb]].

(** The last record of a list that carries a tag. *)
Fixpoint last_with_tag (tag : Z) (records : list ijc_record)
  : option ijc_record :=
  match records with
  | [] => None
  | r :: records' =>
      match last_with_tag tag records' with
      | Some r' => Some r'
      | None => if rec_tag r =? tag then Some r else None
      end
  end.

(** A stream with one record for each component but Export, in tag order,
    and a second Class record at the end. *)
Definition sample_stream : list ijc_record :=
  [mk_record 1 [xde; xca]; mk_record 2 [xd2]; mk_record 3 [xd3];
   mk_record 4 [xd4]; mk_record 5 [xd5]; mk_record 6 [xd6];
   mk_record 7 [xd7]; mk_record 8 [xd8]; mk_record 9 [xd9];
   mk_record 11 []; mk_record 12 [xdc]; mk_record 6 [xc6; xc6]].

(** The wire form of an unsigned integer: [n] bytes, big-endian, as
    [int.to_bytes(n, 'big')] gives them. *)
Fixpoint int_to_bytes (n : nat) (z : Z) : bytes :=
  match n with
  | O => []
  | S n' => (int_to_bytes n' (z / 256) ++ [byte_of_int (z mod 256)])%list
  end.

(** The wire form of an LV field. *)
Definition encode_LV (v : bytes) : bytes :=
  (int_to_bytes 1 (Z.of_nat (List.length v)) ++ v)%list.

(** The wire form of a Header record, field after field as the declaration
    lists them; an absent [package_name] takes no bytes. *)
Definition encode_header (h : Header.t) : bytes :=
  (int_to_bytes 1 (Header.tag h) ++ int_to_bytes 2 (Header.size h)
   ++ int_to_bytes 4 (Header.magic h)
   ++ int_to_bytes 1 (Header.minor_version h)
   ++ int_to_bytes 1 (Header.major_version h)
   ++ int_to_bytes 1 (Header.flags h)
   ++ int_to_bytes 1 (Package.minor_version (Header.package h))
   ++ int_to_bytes 1 (Package.major_version (Header.package h))
   ++ encode_LV (Package.AID (Header.package h))
   ++ match Header.package_name h with
      | Some name => encode_LV name
      | None => []
      end)%list.

(** The fields of a Header fit their widths. *)
Definition header_in_range (h : Header.t) : Prop :=
  0 <= Header.tag h < 256 /\ 0 <= Header.size h < 65536 /\
  0 <= Header.magic h < 4294967296 /\
  0 <= Header.minor_version h < 256 /\ 0 <= Header.major_version h < 256 /\
  0 <= Header.flags h < 256 /\
  0 <= Package.minor_version (Header.package h) < 256 /\
  0 <= Package.major_version (Header.package h) < 256 /\
  (List.length (Package.AID (Header.package h)) < 256)%nat /\
  match Header.package_name h with
  | Some name => (List.length name < 256)%nat
  | None => True
  end.

(** The wire form of one applet and of an Applet record. *)
Definition encode_applet_entry (e : AppletEntry.t) : bytes :=
  (encode_LV (AppletEntry.AID e)
   ++ int_to_bytes 2 (AppletEntry.install_method_offset e))%list.

Definition encode_applet (a : Applet.t) : bytes :=
  (int_to_bytes 1 (Applet.tag a) ++ int_to_bytes 2 (Applet.size a)
   ++ int_to_bytes 1 (Applet.count a)
   ++ List.concat (map encode_applet_entry (Applet.applets a)))%list.

Definition applet_entry_in_range (e : AppletEntry.t) : Prop :=
  (List.length (AppletEntry.AID e) < 256)%nat /\
  0 <= AppletEntry.install_method_offset e < 65536.

Definition applet_in_range (a : Applet.t) : Prop :=
  0 <= Applet.tag a < 256 /\ 0 <= Applet.size a < 65536 /\
  Applet.count a = Z.of_nat (List.length (Applet.applets a)) /\
  Applet.count a < 256 /\
  Forall applet_entry_in_range (Applet.applets a).

(** A Header of CAP format 2.2 with a package name, and an Applet record
    with two applets. *)
Definition sample_named_header : Header.t :=
  Header.mk 1 21 0xDECAFFED 2 2 4
    (Package.mk 0 1 [xa0; x00; x00; x00; x62])
    (Some [x68; x65; x6c; x6c; x6f]).

Definition sample_applets : Applet.t :=
  Applet.mk 3 18 2
    [AppletEntry.mk [xa0; x00; x00; x00; x62; x01] 16;
     AppletEntry.mk [xa0; x00; x00; x00; x62; x02] 300].

(** The name is that of some component. *)
Definition is_component_name (filename : string) : bool :=
  existsb (fun c => matches c filename) all_components.

(** The archive without the entries that are no components. *)
Definition components_only (cap : ZipFile) : ZipFile :=
  filter (fun e => is_component_name (fst e)) cap.

(** No component has two entries in the archive. *)
Definition one_entry_per_component (cap : ZipFile) : Prop :=
  forall c e1 e2,
    In e1 cap -> In e2 cap ->
    matches c (fst e1) = true -> matches c (fst e2) = true -> e1 = e2.

(** ** Bytes and integers *)

Lemma int_of_byte_range (x : byte) : 0 <= int_of_byte x < 256.
Proof.
  unfold int_of_byte. pose proof (Byte.to_N_bounded x). lia.
Qed.

Lemma int_of_byte_of_int (z : Z) :
  0 <= z < 256 -> int_of_byte (byte_of_int z) = z.
Proof.
  intros Hz. unfold int_of_byte, byte_of_int.
  destruct (Byte.of_N (Z.to_N z)) as [x|] eqn:E.
  - apply Byte.to_of_N in E. rewrite E. lia.
  - apply Byte.of_N_None_iff in E. lia.
Qed.

Lemma byte_of_int_of_byte (x : byte) : byte_of_int (int_of_byte x) = x.
Proof.
  unfold int_of_byte, byte_of_int.
  rewrite N2Z.id, Byte.of_to_N. reflexivity.
Qed.

(** ** The loop of [ijc_to_cap] *)

Lemma unpack_BH_size_nonneg buf tag size :
  unpack_BH buf = inr (tag, size) -> 0 <= tag < 256 /\ 0 <= size < 65536.
Proof.
  destruct buf as [|t [|hi [|lo [|? ?]]]]; cbn [unpack_BH]; try discriminate.
  intros E. injection E as <- <-.
  pose proof (int_of_byte_range t). pose proof (int_of_byte_range hi).
  pose proof (int_of_byte_range lo). lia.
Qed.

Lemma length_slice_from_lt (b : bytes) (x : byte) (n : Z) :
  3 <= n -> (List.length (slice_from (x :: b) n) < List.length (x :: b))%nat.
Proof.
  intros Hn. unfold slice_from. rewrite length_skipn.
  cbn [List.length]. lia.
Qed.

(** Any two amounts of fuel not below the length of the stream give the
    same run. *)
Lemma ijc_loop_fuel (fuel1 : nat) :
  forall fuel2 b out_zip p,
    (List.length b <= fuel1)%nat -> (List.length b <= fuel2)%nat ->
    ijc_loop fuel1 b out_zip p = ijc_loop fuel2 b out_zip p.
Proof.
  induction fuel1 as [|fuel1 IH]; intros fuel2 b out_zip p H1 H2.
  - destruct b; [destruct fuel2; reflexivity | simpl in H1; lia].
  - destruct b as [|x b]; [destruct fuel2; reflexivity|].
    destruct fuel2 as [|fuel2]; [simpl in H2; lia|].
    cbn [ijc_loop].
    destruct (unpack_BH (slice_to (x :: b) 3)) as [e|[tag size]] eqn:E;
      [reflexivity|].
    destruct (getitem TAGS (tag - 1)) as [e|name]; [reflexivity|].
    apply unpack_BH_size_nonneg in E.
    pose proof (length_slice_from_lt b x (3 + size)).
    apply IH; cbn [List.length] in *; lia.
Qed.

(** The loop, free of fuel: one iteration and the run on the rest. *)
Lemma ijc_to_cap_unfold (b : bytes) (out_zip : ZipFile) (p : string) :
  ijc_to_cap b out_zip p =
  match b with
  | [] => Some (out_zip, inr tt)
  | _ :: _ =>
      match unpack_BH (slice_to b 3) with
      | inl e => Some (out_zip, inl e)
      | inr (tag, size) =>
          match getitem TAGS (tag - 1) with
          | inl e => Some (out_zip, inl e)
          | inr name =>
              ijc_to_cap (slice_from b (3 + size))
                (writestr out_zip (p ++ "/javacard/" ++ name ++ ".cap")
                   (slice_to b (3 + size)))
                p
          end
      end
  end.
Proof.
  unfold ijc_to_cap. destruct b as [|x b]; [reflexivity|].
  cbn [List.length ijc_loop].
  destruct (unpack_BH (slice_to (x :: b) 3)) as [e|[tag size]] eqn:E;
    [reflexivity|].
  destruct (getitem TAGS (tag - 1)) as [e|name]; [reflexivity|].
  apply unpack_BH_size_nonneg in E.
  pose proof (length_slice_from_lt b x (3 + size)).
  apply ijc_loop_fuel; cbn [List.length] in *; lia.
Qed.

(** The splitter terminates on every stream: the fuel never runs out. *)
Lemma ijc_to_cap_total (b : bytes) :
  forall out_zip p, exists r, ijc_to_cap b out_zip p = Some r.
Proof.
  remember (List.length b) as n eqn:Hn.
  revert b Hn. induction n as [n IH] using lt_wf_ind.
  intros b Hn out_zip p. rewrite ijc_to_cap_unfold.
  destruct b as [|x b]; [eauto|].
  destruct (unpack_BH (slice_to (x :: b) 3)) as [e|[tag size]] eqn:E;
    [eauto|].
  destruct (getitem TAGS (tag - 1)) as [e|name]; [eauto|].
  apply unpack_BH_size_nonneg in E.
  pose proof (length_slice_from_lt b x (3 + size)).
  eapply IH; [|reflexivity]. subst n. cbn [List.length] in *. lia.
Qed.

Lemma getitem_TAGS (tag : Z) :
  1 <= tag <= 12 -> getitem TAGS (tag - 1) = inr (table_name tag).
Proof.
  intros H. destruct tag as [|q|q]; try lia.
  do 4 (try destruct q as [q|q|]); try reflexivity; lia.
Qed.

Lemma getitem_TAGS_above (tag : Z) :
  12 < tag -> getitem TAGS (tag - 1) = inl IndexError.
Proof.
  intros H. unfold getitem.
  destruct (tag - 1 <? 0) eqn:E; [lia|].
  rewrite E.
  destruct (nth_error TAGS (Z.to_nat (tag - 1))) eqn:N; [|reflexivity].
  assert (nth_error TAGS (Z.to_nat (tag - 1)) <> None) as N' by congruence.
  apply nth_error_Some in N'. cbn [TAGS List.length] in N'. lia.
Qed.

(** One well-formed record at the front of the stream is emitted whole, and
    the loop goes on behind it. *)
Lemma ijc_to_cap_record (r : ijc_record) (tail : bytes) out_zip p :
  well_formed r ->
  ijc_to_cap (encode r ++ tail)%list out_zip p =
  ijc_to_cap tail (out_zip ++ [emitted p r])%list p.
Proof.
  intros [Htag Hsize].
  assert (0 <= rec_size r) as Hpos by (unfold rec_size; lia).
  rewrite ijc_to_cap_unfold.
  change (encode r ++ tail)%list
    with (byte_of_int (rec_tag r) :: byte_of_int (rec_size r / 256)
            :: byte_of_int (rec_size r mod 256) :: (rec_payload r ++ tail))%list.
  change (slice_to (?a :: ?b :: ?c :: ?l) 3) with [a; b; c].
  cbn [unpack_BH].
  assert (0 <= rec_size r / 256 < 256) as Hhi
    by (split; [apply Z.div_pos | apply Z.div_lt_upper_bound]; lia).
  assert (0 <= rec_size r mod 256 < 256) as Hlo
    by (apply Z.mod_pos_bound; lia).
  rewrite !int_of_byte_of_int by lia.
  replace (rec_size r / 256 * 256 + rec_size r mod 256) with (rec_size r)
    by (rewrite (Z.div_mod (rec_size r) 256) at 1; lia).
  rewrite getitem_TAGS by lia.
  unfold slice_from, slice_to, writestr, emitted, entry_name.
  replace (Z.to_nat (3 + rec_size r))
    with (3 + List.length (rec_payload r))%nat by (unfold rec_size; lia).
  cbn [Init.Nat.add firstn skipn].
  rewrite firstn_app, firstn_all, Nat.sub_diag, skipn_app, skipn_all,
    Nat.sub_diag.
  cbn [firstn skipn app]. rewrite app_nil_r. reflexivity.
Qed.


Lemma ijc_to_cap_records (records : list ijc_record) (tail : bytes) p :
  Forall well_formed records ->
  forall out_zip,
    ijc_to_cap (List.concat (map encode records) ++ tail)%list out_zip p =
    ijc_to_cap tail (out_zip ++ map (emitted p) records)%list p.
Proof.
  induction 1 as [|r records Hr _ IH]; intros out_zip.
  - cbn [map List.concat app]. rewrite app_nil_r. reflexivity.
  - cbn [map List.concat]. rewrite <- app_assoc, ijc_to_cap_record by assumption.
    rewrite IH, <- app_assoc. reflexivity.
Qed.

(** ** The IJC splitter *)

(** C5. Splitting the concatenation of N well-formed records (tag in 1..12,
    big-endian 2-byte size, exactly size payload bytes) appends exactly N
    entries to the archive, the bytes of each being the bytes of the
    corresponding record, in order, under the name that the Component Table
    gives to its tag (behind the caller's prefix and "/javacard/", before
    ".cap"), and returns normally.  In particular the stream of the single
    record tag=1, size=0 yields one 3-byte entry named Header. *)
Theorem ijc_split_roundtrip :
  (forall (records : list ijc_record) (out_zip : ZipFile) (p : string),
      Forall well_formed records ->
      ijc_to_cap (List.concat (map encode records)) out_zip p =
      Some ((out_zip ++ map (emitted p) records)%list, inr tt))
  /\ ijc_to_cap [x01; x00; x00] [] "foo" =
     Some ([("foo/javacard/Header.cap", [x01; x00; x00])], inr tt).
Proof.
  split; [|reflexivity].
  intros records out_zip p Hwf.
  rewrite <- (app_nil_r (List.concat (map encode records))).
  rewrite ijc_to_cap_records by assumption.
  apply ijc_to_cap_unfold.
Qed.

Lemma sample_records_well_formed : Forall well_formed sample_records.
Proof. repeat constructor; vm_compute; congruence. Defined.

Lemma ijc_split_roundtrip_witness :
  Forall well_formed sample_records /\
  ijc_to_cap (List.concat (map encode sample_records)) [] "foo" =
  Some (([] ++ map (emitted "foo") sample_records)%list, inr tt).
Proof.
  split; [exact sample_records_well_formed|].
  apply (proj1 ijc_split_roundtrip sample_records [] "foo").
  exact sample_records_well_formed.
Defined.

(** C6, the claim refuted: the stream [00 00 00] starts with tag 0, outside
    1..12, and the splitter raises nothing: [TAGS[-1]] is the last entry of
    the table, and the record is written out as Debug. *)
Lemma ijc_tag_zero_is_emitted :
  ~ (1 <= int_of_byte x00 <= 12) /\
  ijc_to_cap [x00; x00; x00] [] "foo" =
    Some ([("foo/javacard/Debug.cap", [x00; x00; x00])], inr tt) /\
  ~ (exists out_zip e,
        ijc_to_cap [x00; x00; x00] [] "foo" = Some (out_zip, inl e)).
Proof.
  split; [vm_compute; intros [H _]; apply H; reflexivity|].
  split; [reflexivity|].
  intros (out_zip & e & H). vm_compute in H. discriminate H.
Qed.

(** C6, amended.  When, behind any number of well-formed records, the next
    three bytes are a record prefix whose tag is above 12, the splitter
    stops with the [IndexError] of the table lookup (which carries no tag
    value), having written the records before and no entry for this one. *)
Theorem ijc_tag_above_table_raises
    (records : list ijc_record) (t hi lo : byte) (rest : bytes)
    (out_zip : ZipFile) (p : string) :
  Forall well_formed records ->
  12 < int_of_byte t ->
  ijc_to_cap (List.concat (map encode records) ++ t :: hi :: lo :: rest)%list
    out_zip p =
  Some ((out_zip ++ map (emitted p) records)%list, inl IndexError).
Proof.
  intros Hwf Ht.
  rewrite ijc_to_cap_records by assumption.
  rewrite ijc_to_cap_unfold.
  change (slice_to (t :: hi :: lo :: rest) 3) with [t; hi; lo].
  cbn [unpack_BH]. rewrite getitem_TAGS_above by assumption. reflexivity.
Qed.

Lemma ijc_tag_above_table_raises_witness :
  Forall well_formed sample_records /\ 12 < int_of_byte x0d /\
  ijc_to_cap
    (List.concat (map encode sample_records) ++ [x0d; x00; x01; xcc])%list
    [] "foo" =
  Some (([] ++ map (emitted "foo") sample_records)%list, inl IndexError).
Proof.
  split; [exact sample_records_well_formed|].
  split; [reflexivity|].
  apply (ijc_tag_above_table_raises sample_records x0d x00 x01 [xcc] [] "foo").
  - exact sample_records_well_formed.
  - reflexivity.
Defined.

(** C7, the claim refuted: in the stream [01 00 05 aa] the record declares
    five payload bytes and one is left; the splitter raises nothing and
    writes the four bytes out as a short Header entry. *)
Lemma ijc_short_record_is_emitted :
  Z.of_nat (List.length [xaa]) < int_of_byte x00 * 256 + int_of_byte x05 /\
  ijc_to_cap [x01; x00; x05; xaa] [] "foo" =
    Some ([("foo/javacard/Header.cap", [x01; x00; x05; xaa])], inr tt) /\
  ~ (exists out_zip e,
        ijc_to_cap [x01; x00; x05; xaa] [] "foo" = Some (out_zip, inl e)).
Proof.
  split; [reflexivity|].
  split; [reflexivity|].
  intros (out_zip & e & H). vm_compute in H. discriminate H.
Qed.

(** C7, amended.  When, behind any number of well-formed records, the rest
    of the stream is a complete 3-byte prefix with a tag in 1..12 and fewer
    payload bytes than the prefix declares, the splitter raises nothing: it
    writes the bytes that are left as a last, short entry under the name of
    the tag and returns normally. *)
Theorem ijc_short_record_written
    (records : list ijc_record) (t hi lo : byte) (payload : bytes)
    (out_zip : ZipFile) (p : string) :
  Forall well_formed records ->
  1 <= int_of_byte t <= 12 ->
  Z.of_nat (List.length payload) < int_of_byte hi * 256 + int_of_byte lo ->
  ijc_to_cap
    (List.concat (map encode records) ++ t :: hi :: lo :: payload)%list
    out_zip p =
  Some ((out_zip ++ map (emitted p) records
           ++ [(entry_name p (table_name (int_of_byte t)),
                t :: hi :: lo :: payload)])%list,
        inr tt).
Proof.
  intros Hwf Ht Hshort.
  rewrite ijc_to_cap_records by assumption.
  rewrite ijc_to_cap_unfold.
  change (slice_to (t :: hi :: lo :: payload) 3) with [t; hi; lo].
  cbn [unpack_BH]. rewrite getitem_TAGS by assumption.
  unfold slice_from, slice_to.
  rewrite skipn_all2, firstn_all2 by (cbn [List.length]; lia).
  rewrite ijc_to_cap_unfold. unfold writestr, entry_name.
  rewrite <- app_assoc. reflexivity.
Qed.

Lemma ijc_short_record_written_witness :
  Forall well_formed sample_records /\ 1 <= int_of_byte x01 <= 12 /\
  Z.of_nat (List.length [xaa]) < int_of_byte x00 * 256 + int_of_byte x05 /\
  ijc_to_cap
    (List.concat (map encode sample_records) ++ [x01; x00; x05; xaa])%list
    [] "foo" =
  Some (([] ++ map (emitted "foo") sample_records
            ++ [(entry_name "foo" (table_name (int_of_byte x01)),
                 [x01; x00; x05; xaa])])%list,
        inr tt).
Proof.
  split; [exact sample_records_well_formed|].
  split; [vm_compute; split; congruence|].
  split; [reflexivity|].
  apply (ijc_short_record_written sample_records x01 x00 x05 [xaa] [] "foo").
  - exact sample_records_well_formed.
  - vm_compute; split; congruence.
  - reflexivity.
Defined.

(** ** Classification of entry names *)

Lemma starts_with_both (l : list ascii) :
  forall a b,
    starts_with a l = true -> starts_with b l = true ->
    starts_with a b = true \/ starts_with b a = true.
Proof.
  induction l as [|x l IH]; intros [|a0 a] [|b0 b]; cbn [starts_with];
    auto; try discriminate.
  intros Ha Hb.
  apply andb_true_iff in Ha as [Ha0 Ha], Hb as [Hb0 Hb].
  apply Ascii.eqb_eq in Ha0, Hb0. subst a0 b0.
  rewrite Ascii.eqb_refl. cbn [andb]. auto.
Qed.

(** No component suffix is the end of another one, so a name matches at
    most one component and the order of the [elif] chain is immaterial. *)
Lemma matches_unique (filename : string) (c1 c2 : Component) :
  matches c1 filename = true -> matches c2 filename = true -> c1 = c2.
Proof.
  unfold matches, endswith. intros H1 H2.
  destruct (starts_with_both _ _ _ H1 H2) as [H|H];
    destruct c1, c2; try reflexivity; vm_compute in H; discriminate H.
Qed.

(** The [elif] chain is a lookup in the table of component names. *)
Lemma classify_by_table (cap : ZipFile) (self : CapFile) (filename : string) :
  classify cap self filename =
  match find (fun c => matches c filename) all_components with
  | Some c => data <- read cap filename ;; ret (store c (Some data) self)
  | None => ret self
  end.
Proof.
  unfold classify, all_components, matches. cbn [find component_name].
  repeat match goal with
         | |- context [lower (?a ++ ?b)] =>
             let v := eval vm_compute in (lower (a ++ b)) in
             change (lower (a ++ b)) with v
         end.
  repeat match goal with
         | |- context [endswith (lower filename) ?s] =>
             destruct (endswith (lower filename) s); [reflexivity|]
         end.
  reflexivity.
Qed.

Lemma find_matches (filename : string) (c : Component) :
  matches c filename = true ->
  find (fun c => matches c filename) all_components = Some c.
Proof.
  intros H.
  destruct (find (fun c => matches c filename) all_components) as [c'|] eqn:F.
  - apply find_some in F as [_ F]. f_equal. eapply matches_unique; eassumption.
  - eapply find_none in F; [rewrite H in F; discriminate F|].
    destruct c; cbn; tauto.
Qed.

Lemma find_matches_none (filename : string) :
  (forall c, matches c filename = false) ->
  find (fun c => matches c filename) all_components = None.
Proof.
  intros H.
  destruct (find (fun c => matches c filename) all_components) as [c'|] eqn:F;
    [|reflexivity].
  apply find_some in F as [_ F]. rewrite H in F. discriminate F.
Qed.

Lemma read_In (cap : ZipFile) (name : string) :
  In name (namelist cap) -> exists data, read cap name = inr data.
Proof.
  induction cap as [|[n d] cap IH]; cbn [namelist map In read fst];
    [tauto|].
  intros [->|H].
  - destruct (read cap name); [|eauto]. rewrite String.eqb_refl. eauto.
  - destruct (IH H) as [data ->]. eauto.
Qed.

Lemma slot_store_same (c : Component) v (self : CapFile) :
  slot c (store c v self) = v.
Proof. destruct self, c; reflexivity. Qed.

Lemma slot_store_other (c c' : Component) v (self : CapFile) :
  c <> c' -> slot c (store c' v self) = slot c self.
Proof. destruct self, c, c'; intros H; try reflexivity; congruence. Qed.

(** One step of the loop of [__init__] on a name of the archive. *)
Lemma classify_slot (cap : ZipFile) (self : CapFile) (filename : string) :
  In filename (namelist cap) ->
  exists self' data,
    read cap filename = inr data /\
    classify cap self filename = inr self' /\
    forall c, slot c self' =
              if matches c filename then Some data else slot c self.
Proof.
  intros Hin. destruct (read_In _ _ Hin) as [data Hread].
  rewrite classify_by_table, Hread.
  destruct (find (fun c => matches c filename) all_components) as [c'|] eqn:F.
  - exists (store c' (Some data) self), data. repeat split.
    intros c. apply find_some in F as [_ F].
    destruct (matches c filename) eqn:M.
    + rewrite (matches_unique _ _ _ M F). apply slot_store_same.
    + apply slot_store_other. intros ->. congruence.
  - exists self, data. repeat split.
    intros c. destruct (matches c filename) eqn:M; [|reflexivity].
    apply find_matches in M. congruence.
Qed.

Lemma last_match_None (c : Component) (names : list string) :
  last_match c names = None <->
  forall n, In n names -> matches c n = false.
Proof.
  induction names as [|x names IH]; cbn [last_match In]; [tauto|].
  destruct (last_match c names) as [n'|].
  - split; [discriminate|]. intros H.
    assert (Some n' = None) as E by (apply IH; auto). discriminate E.
  - destruct (matches c x) eqn:M.
    + split; [discriminate|]. intros H. rewrite H in M by auto. discriminate M.
    + split; [|reflexivity]. intros _ n [<-|Hn]; [assumption|].
      apply IH; auto.
Qed.

Lemma last_match_Some (c : Component) (names : list string) (n : string) :
  last_match c names = Some n -> In n names /\ matches c n = true.
Proof.
  induction names as [|x names IH]; cbn [last_match In]; [discriminate|].
  destruct (last_match c names) as [n'|].
  - intros E. injection E as <-. destruct IH; auto.
  - destruct (matches c x) eqn:M; [|discriminate].
    intros E. injection E as <-. auto.
Qed.

(** The loop of [__init__] never raises, and leaves in every slot the data
    of the last name classified under it. *)
Lemma for_each_classify (cap : ZipFile) (names : list string) :
  incl names (namelist cap) ->
  forall self, exists self',
    for_each (classify cap) names self = inr self' /\
    forall c, slot c self' =
              match last_match c names with
              | Some n => entry_data cap n
              | None => slot c self
              end.
Proof.
  induction names as [|x names IH]; intros Hincl self.
  - exists self. split; reflexivity.
  - destruct (classify_slot cap self x) as (self1 & data & Hread & Hcl & Hslot);
      [apply Hincl; left; reflexivity|].
    destruct (IH (fun n H => Hincl n (or_intror H)) self1) as (self' & Hrun & Hfin).
    exists self'. split.
    + cbn [for_each]. rewrite Hcl. exact Hrun.
    + intros c. rewrite Hfin, Hslot. cbn [last_match].
      destruct (last_match c names); [reflexivity|].
      destruct (matches c x); [|reflexivity].
      unfold entry_data. rewrite Hread. reflexivity.
Qed.

(** The nine [if ... is None: raise] statements report the first missing
    component of [check_order]. *)
Lemma mandatory_checks (self : CapFile) :
  (if is_None (component_header self) then
     raise (ValueError (component_missing "COMPONENT_Header"))
   else if is_None (component_directory self) then
     raise (ValueError (component_missing "COMPONENT_Directory"))
   else if is_None (component_import self) then
     raise (ValueError (component_missing "COMPONENT_Import"))
   else if is_None (component_constantPool self) then
     raise (ValueError (component_missing "COMPONENT_ConstantPool"))
   else if is_None (component_class self) then
     raise (ValueError (component_missing "COMPONENT_Class"))
   else if is_None (component_method self) then
     raise (ValueError (component_missing "COMPONENT_Method"))
   else if is_None (component_staticField self) then
     raise (ValueError (component_missing "COMPONENT_StaticField"))
   else if is_None (component_referenceLocation self) then
     raise (ValueError (component_missing "COMPONENT_ReferenceLocation"))
   else if is_None (component_descriptor self) then
     raise (ValueError (component_missing "COMPONENT_Descriptor"))
   else ret self) =
  match first_missing self with
  | Some c => inl (ValueError (component_missing (reported_name c)))
  | None => inr self
  end.
Proof.
  unfold first_missing, check_order. cbn [find slot].
  repeat match goal with
         | |- context [is_None ?o] => destruct (is_None o); [reflexivity|]
         end.
  reflexivity.
Qed.

(** Construction, in the words of the specification: classify, then report
    the first mandatory component whose slot stayed empty. *)
Lemma CapFile_init_eq (cap : ZipFile) :
  exists self,
    (forall c, slot c self = classified cap c) /\
    CapFile_init cap =
    match first_missing self with
    | Some c => inl (ValueError (component_missing (reported_name c)))
    | None => inr self
    end.
Proof.
  destruct (for_each_classify cap (namelist cap) (incl_refl _) class_defaults)
    as (self & Hrun & Hslot).
  exists self. split.
  - intros c. rewrite Hslot. unfold classified.
    destruct (last_match c (namelist cap)); [reflexivity|].
    destruct c; reflexivity.
  - unfold CapFile_init. rewrite Hrun.
    change (bind (inr self) ?f) with (f self). cbv beta.
    apply mandatory_checks.
Qed.

Lemma first_missing_Some (self : CapFile) (c : Component) :
  first_missing self = Some c -> mandatory c = true /\ slot c self = None.
Proof.
  unfold first_missing. intros F. apply find_some in F as [Hin F].
  split.
  - cbn in Hin. repeat (destruct Hin as [<-|Hin]; [reflexivity|]). tauto.
  - destruct (slot c self); [discriminate F | reflexivity].
Qed.

Lemma first_missing_None (self : CapFile) (c : Component) :
  first_missing self = None -> mandatory c = true -> slot c self <> None.
Proof.
  unfold first_missing. intros F Hc.
  eapply find_none with (x := c) in F.
  - destruct (slot c self); [discriminate | discriminate F].
  - destruct c; cbn; try tauto; discriminate Hc.
Qed.

Lemma classified_None (cap : ZipFile) (c : Component) :
  classified cap c = None <->
  forall n, In n (namelist cap) -> matches c n = false.
Proof.
  unfold classified. rewrite <- last_match_None.
  destruct (last_match c (namelist cap)) as [n|] eqn:L; [|tauto].
  split; [|discriminate].
  apply last_match_Some in L as [Hin _].
  destruct (read_In _ _ Hin) as [data Hread].
  unfold entry_data. rewrite Hread. discriminate.
Qed.

(** ** Construction of a [CapFile] *)

(** A matching entry for each mandatory component makes construction
    return an object. *)
Lemma CapFile_init_complete (cap : ZipFile) :
  (forall c, mandatory c = true ->
             exists n, In n (namelist cap) /\ matches c n = true) ->
  exists self, CapFile_init cap = inr self.
Proof.
  destruct (CapFile_init_eq cap) as (self & Hslot & Hinit).
  rewrite Hinit. intros Hall.
  destruct (first_missing self) as [c'|] eqn:F; [|eauto].
  exfalso. apply first_missing_Some in F as [Hc' Hnone].
  destruct (Hall c' Hc') as (n & Hin & Hm).
  rewrite Hslot in Hnone.
  rewrite (proj1 (classified_None cap c') Hnone n Hin) in Hm.
  discriminate Hm.
Qed.

(** C2. When one of the nine mandatory components has no entry whose name
    matches it, construction raises the [ValueError] that names a mandatory
    component without a matching entry (the first in the order of the
    checks) and returns no object; when each of the nine has a matching
    entry, construction returns an object.  The nine are Header, Directory,
    Import, ConstantPool, Class, Method, StaticField, ReferenceLocation
    (entries named RefLocation.cap) and Descriptor. *)
Theorem CapFile_init_mandatory_components (cap : ZipFile) :
  ((exists c, mandatory c = true /\
              forall n, In n (namelist cap) -> matches c n = false) ->
   exists c, mandatory c = true /\
             (forall n, In n (namelist cap) -> matches c n = false) /\
             CapFile_init cap =
             inl (ValueError (component_missing (reported_name c))))
  /\
  ((forall c, mandatory c = true ->
              exists n, In n (namelist cap) /\ matches c n = true) ->
   exists self, CapFile_init cap = inr self).
Proof.
  split; [|apply CapFile_init_complete].
  destruct (CapFile_init_eq cap) as (self & Hslot & Hinit).
  rewrite Hinit. intros (c & Hc & Hno).
  destruct (first_missing self) as [c'|] eqn:F.
  - apply first_missing_Some in F as [Hc' Hnone].
    exists c'. repeat split; [assumption|].
    apply classified_None. rewrite <- Hslot. assumption.
  - exfalso. apply (first_missing_None _ c F Hc).
    rewrite Hslot. apply classified_None. assumption.
Qed.

Lemma CapFile_init_mandatory_components_witness :
  ((exists c, mandatory c = true /\
              forall n, In n (namelist archive_without_import) ->
                        matches c n = false) /\
   exists c, mandatory c = true /\
             (forall n, In n (namelist archive_without_import) ->
                        matches c n = false) /\
             CapFile_init archive_without_import =
             inl (ValueError (component_missing (reported_name c))))
  /\
  ((forall c, mandatory c = true ->
              exists n, In n (namelist sample_archive) /\ matches c n = true) /\
   exists self, CapFile_init sample_archive = inr self).
Proof.
  assert (exists c, mandatory c = true /\
              forall n, In n (namelist archive_without_import) ->
                        matches c n = false) as H1.
  { exists COMPONENT_Import. split; [reflexivity|].
    intros n Hn. vm_compute in Hn.
    repeat (destruct Hn as [<-|Hn]; [reflexivity|]). contradiction. }
  assert (forall c, mandatory c = true ->
              exists n, In n (namelist sample_archive) /\ matches c n = true)
    as H2.
  { intros c Hc.
    exists (match last_match c (namelist sample_archive) with
            | Some n => n | None => EmptyString end).
    destruct c; try discriminate Hc; vm_compute; intuition. }
  split; split; try assumption.
  - exact (proj1 (CapFile_init_mandatory_components archive_without_import) H1).
  - exact (proj2 (CapFile_init_mandatory_components sample_archive) H2).
Defined.

(** C8. During construction, an entry whose name ends, letter case
    ignored, in the name of one of the twelve components of the Component
    Table followed by ".cap" has its data stored in the slot of that
    component; an entry whose name matches no component leaves the object
    as it was.  The name "FOO/javacard/Header.cap" is classified as the
    Header component.  On return every slot holds the data of the last
    entry classified under it. *)
Theorem classify_by_suffix :
  (forall (cap : ZipFile) (self : CapFile) (filename : string) (c : Component),
      In filename (namelist cap) ->
      matches c filename = true ->
      exists data,
        read cap filename = inr data /\
        classify cap self filename = inr (store c (Some data) self))
  /\ (forall (cap : ZipFile) (self : CapFile) (filename : string),
         (forall c, matches c filename = false) ->
         classify cap self filename = inr self)
  /\ (forall (data : bytes) (self : CapFile),
         classify [("FOO/javacard/Header.cap", data)] self
           "FOO/javacard/Header.cap" = inr (set_header (Some data) self))
  /\ (forall (cap : ZipFile) (self : CapFile),
         CapFile_init cap = inr self ->
         forall c, slot c self = classified cap c).
Proof.
  repeat split.
  - intros cap self filename c Hin Hm.
    destruct (read_In _ _ Hin) as [data Hread]. exists data.
    split; [assumption|].
    rewrite classify_by_table, (find_matches _ _ Hm), Hread. reflexivity.
  - intros cap self filename Hno.
    rewrite classify_by_table, (find_matches_none _ Hno). reflexivity.
  - intros cap self Hinit c.
    destruct (CapFile_init_eq cap) as (self' & Hslot & Hinit').
    rewrite Hinit in Hinit'.
    destruct (first_missing self'); [discriminate Hinit'|].
    injection Hinit' as ->. apply Hslot.
Qed.

Lemma classify_by_suffix_witness :
  (In "foo/javacard/RefLocation.cap" (namelist sample_archive) /\
   matches COMPONENT_ReferenceLocation "foo/javacard/RefLocation.cap" = true /\
   exists data,
     read sample_archive "foo/javacard/RefLocation.cap" = inr data /\
     classify sample_archive class_defaults "foo/javacard/RefLocation.cap" =
     inr (store COMPONENT_ReferenceLocation (Some data) class_defaults))
  /\ ((forall c, matches c "META-INF/MANIFEST.MF" = false) /\
      classify sample_archive class_defaults "META-INF/MANIFEST.MF" =
      inr class_defaults)
  /\ (CapFile_init sample_archive = inr sample_capfile /\
      forall c, slot c sample_capfile = classified sample_archive c).
Proof.
  split; [|split].
  - split; [vm_compute; tauto|]. split; [reflexivity|].
    apply (proj1 classify_by_suffix); [vm_compute; tauto | reflexivity].
  - assert (forall c, matches c "META-INF/MANIFEST.MF" = false) as H
        by (intros c; destruct c; reflexivity).
    split; [exact H|].
    apply (proj1 (proj2 classify_by_suffix)). exact H.
  - split; [reflexivity|].
    apply (proj2 (proj2 (proj2 classify_by_suffix)) sample_archive).
    reflexivity.
Defined.

(** ** The hex rendering *)

Lemma unhex_hexdigit (n : N) : (n < 16)%N -> unhex (hexdigit n) = n.
Proof.
  intros H. destruct n as [|q]; [reflexivity|].
  do 4 (try destruct q as [q|q|]); try reflexivity; lia.
Qed.

(** The hex string determines the bytes: [h2b] undoes [b2h]. *)
Lemma h2b_b2h (b : bytes) : h2b (b2h b) = b.
Proof.
  induction b as [|x b IH]; [reflexivity|].
  cbn [b2h h2b]. rewrite IH. f_equal.
  pose proof (Byte.to_N_bounded x) as Hx.
  rewrite !unhex_hexdigit
    by (try (apply N.mod_lt; lia); apply N.Div0.div_lt_upper_bound; lia).
  rewrite N.mul_comm, <- N.div_mod by lia.
  apply byte_of_int_of_byte.
Qed.

Lemma b2h_injective (a b : bytes) : b2h a = b2h b -> a = b.
Proof.
  intros H. rewrite <- (h2b_b2h a), <- (h2b_b2h b), H. reflexivity.
Qed.

(** ** [get_loadfile] *)

(** With the nine mandatory slots filled, [get_loadfile] returns the hex
    string of the components in load order. *)
Lemma get_loadfile_bytes (self : CapFile) :
  (forall c, mandatory c = true -> slot c self <> None) ->
  get_loadfile self = inr (Str (b2h (loadfile_bytes self))).
Proof.
  intros H.
  pose proof (H COMPONENT_Header eq_refl) as Hh.
  pose proof (H COMPONENT_Directory eq_refl) as Hd.
  pose proof (H COMPONENT_Import eq_refl) as Hi.
  pose proof (H COMPONENT_ConstantPool eq_refl) as Hcp.
  pose proof (H COMPONENT_Class eq_refl) as Hc.
  pose proof (H COMPONENT_Method eq_refl) as Hm.
  pose proof (H COMPONENT_StaticField eq_refl) as Hsf.
  pose proof (H COMPONENT_ReferenceLocation eq_refl) as Hrl.
  pose proof (H COMPONENT_Descriptor eq_refl) as Hde.
  clear H.
  destruct self as [h d a i cp c m sf rl e de db]. cbn [slot] in *.
  cbn in Hh, Hd, Hi, Hcp, Hc, Hm, Hsf, Hrl, Hde.
  destruct h; [|congruence]. destruct d; [|congruence].
  destruct i; [|congruence]. destruct cp; [|congruence].
  destruct c; [|congruence]. destruct m; [|congruence].
  destruct sf; [|congruence]. destruct rl; [|congruence].
  destruct de as [de|]; [|congruence].
  unfold get_loadfile, loadfile_bytes, loadfile_order.
  destruct a as [[|? ?]|], e as [[|? ?]|], de as [|? ?];
    cbn -[b2h app]; rewrite ?app_nil_r, <- ?app_assoc; reflexivity.
Qed.

Lemma constructed_mandatory (cap : ZipFile) (self : CapFile) :
  CapFile_init cap = inr self ->
  (forall c, slot c self = classified cap c) /\
  (forall c, mandatory c = true -> slot c self <> None).
Proof.
  intros Hinit.
  destruct (CapFile_init_eq cap) as (self' & Hslot & Hinit').
  rewrite Hinit in Hinit'.
  destruct (first_missing self') eqn:F; [discriminate Hinit'|].
  injection Hinit' as ->.
  split; [assumption|]. intros c. apply first_missing_None. assumption.
Qed.

(** C1, the claim refuted: on the sample archive construction succeeds and
    [get_loadfile] returns a [str], the hex digits of the concatenation,
    where the claim has the concatenated [bytes] themselves. *)
Lemma get_loadfile_returns_hex_string :
  exists self,
    CapFile_init sample_archive = inr self /\
    get_loadfile self =
      inr (Str ("01000fdecaffed02020000" ++ "0105a000000062" ++ "020001d1"
                ++ "040001d4" ++ "03000a0106a0000000620100" ++ "10"
                ++ "060001d6" ++ "070001d7" ++ "080001d8" ++ "050001d5"
                ++ "090001d9" ++ "0b0001db")) /\
    get_loadfile self <> inr (Bytes (loadfile_bytes self)).
Proof.
  destruct (CapFile_init sample_archive) as [e|self] eqn:E;
    vm_compute in E; [discriminate E|].
  injection E as <-. eexists. split; [reflexivity|].
  split; [reflexivity|]. vm_compute. discriminate.
Qed.

(** C1, amended.  For every constructed archive [get_loadfile] returns the
    lowercase hex string (two digits per byte) of the byte-exact
    concatenation of the components that are present, in the order Header,
    Directory, Import, Applet, Class, Method, StaticField, Export,
    ConstantPool, ReferenceLocation, Descriptor; the string determines
    these bytes, and Debug is not among them: the result does not depend on
    the Debug slot. *)
Theorem get_loadfile_order (cap : ZipFile) (self : CapFile) :
  CapFile_init cap = inr self ->
  get_loadfile self = inr (Str (b2h (loadfile_bytes self))) /\
  h2b (b2h (loadfile_bytes self)) = loadfile_bytes self /\
  loadfile_bytes self =
    (present (component_header self) ++ present (component_directory self)
     ++ present (component_import self) ++ present (component_applet self)
     ++ present (component_class self) ++ present (component_method self)
     ++ present (component_staticField self)
     ++ present (component_export self)
     ++ present (component_constantPool self)
     ++ present (component_referenceLocation self)
     ++ present (component_descriptor self))%list /\
  forall v, get_loadfile (set_debug v self) = get_loadfile self.
Proof.
  intros Hinit. apply constructed_mandatory in Hinit as [_ Hm].
  split; [apply get_loadfile_bytes; assumption|].
  split; [apply h2b_b2h|].
  split.
  - unfold loadfile_bytes, loadfile_order. cbn [map List.concat slot].
    rewrite app_nil_r. reflexivity.
  - intros v. destruct self. reflexivity.
Qed.

Lemma get_loadfile_order_witness :
  CapFile_init sample_archive = inr sample_capfile /\
  get_loadfile sample_capfile
    = inr (Str (b2h (loadfile_bytes sample_capfile))).
Proof.
  split; [reflexivity|].
  apply (proj1 (get_loadfile_order sample_archive sample_capfile eq_refl)).
Defined.

(** C10. When every mandatory component has a matching entry and the
    entries matching Descriptor hold no bytes, construction succeeds with a
    Descriptor slot that is filled but empty, and [get_loadfile] returns
    the hex string of the other components in load order, the Descriptor
    left out.  The three guarded components are included on the truth of
    their bytes: with an empty Applet, Export or Descriptor the result is
    the result without that component. *)
Theorem empty_component_is_omitted :
  (forall cap : ZipFile,
      (forall c, mandatory c = true ->
                 exists n, In n (namelist cap) /\ matches c n = true) ->
      (forall n, In n (namelist cap) ->
                 matches COMPONENT_Descriptor n = true ->
                 read cap n = inr []) ->
      exists self,
        CapFile_init cap = inr self /\
        component_descriptor self = Some [] /\
        get_loadfile self =
        inr (Str (b2h
          (present (component_header self)
           ++ present (component_directory self)
           ++ present (component_import self)
           ++ present (component_applet self)
           ++ present (component_class self)
           ++ present (component_method self)
           ++ present (component_staticField self)
           ++ present (component_export self)
           ++ present (component_constantPool self)
           ++ present (component_referenceLocation self))%list)))
  /\ (forall (self : CapFile) (c : Component),
         c = COMPONENT_Applet \/ c = COMPONENT_Export \/
         c = COMPONENT_Descriptor ->
         slot c self = Some [] ->
         get_loadfile self = get_loadfile (store c None self)).
Proof.
  split.
  - intros cap Hall Hempty.
    destruct (CapFile_init_complete cap Hall) as [self Hinit].
    exists self. split; [assumption|].
    destruct (constructed_mandatory _ _ Hinit) as [Hslot Hm].
    assert (component_descriptor self = Some []) as Hde.
    { change (slot COMPONENT_Descriptor self = Some []).
      rewrite Hslot. unfold classified.
      destruct (last_match COMPONENT_Descriptor (namelist cap)) as [n|] eqn:L.
      - apply last_match_Some in L as [Hin Hmatch].
        unfold entry_data. rewrite (Hempty n Hin Hmatch). reflexivity.
      - destruct (Hall COMPONENT_Descriptor eq_refl) as (n & Hin & Hmatch).
        rewrite (proj1 (last_match_None _ _) L n Hin) in Hmatch.
        discriminate Hmatch. }
    split; [assumption|].
    rewrite (get_loadfile_bytes self Hm).
    unfold loadfile_bytes, loadfile_order. cbn [map List.concat slot].
    rewrite Hde. cbn [present]. rewrite !app_nil_r. reflexivity.
  - intros self c Hc Hslot. destruct self.
    destruct Hc as [-> | [-> | ->]]; cbn [slot] in Hslot; cbn in Hslot;
      subst; reflexivity.
Qed.

Lemma empty_component_is_omitted_witness :
  (forall c, mandatory c = true ->
             exists n, In n (namelist archive_empty_descriptor) /\
                       matches c n = true) /\
  (forall n, In n (namelist archive_empty_descriptor) ->
             matches COMPONENT_Descriptor n = true ->
             read archive_empty_descriptor n = inr []) /\
  (exists self,
      CapFile_init archive_empty_descriptor = inr self /\
      component_descriptor self = Some [] /\
      get_loadfile self =
      inr (Str (b2h
        (present (component_header self)
         ++ present (component_directory self)
         ++ present (component_import self)
         ++ present (component_applet self)
         ++ present (component_class self)
         ++ present (component_method self)
         ++ present (component_staticField self)
         ++ present (component_export self)
         ++ present (component_constantPool self)
         ++ present (component_referenceLocation self))%list))) /\
  ((COMPONENT_Export = COMPONENT_Applet \/
    COMPONENT_Export = COMPONENT_Export \/
    COMPONENT_Export = COMPONENT_Descriptor) /\
   slot COMPONENT_Export (set_export (Some []) sample_capfile) = Some [] /\
   get_loadfile (set_export (Some []) sample_capfile) =
   get_loadfile
     (store COMPONENT_Export None (set_export (Some []) sample_capfile))).
Proof.
  assert (forall c, mandatory c = true ->
             exists n, In n (namelist archive_empty_descriptor) /\
                       matches c n = true) as H1.
  { intros c Hc.
    exists (match last_match c (namelist archive_empty_descriptor) with
            | Some n => n | None => EmptyString end).
    destruct c; try discriminate Hc; vm_compute; intuition. }
  assert (forall n, In n (namelist archive_empty_descriptor) ->
             matches COMPONENT_Descriptor n = true ->
             read archive_empty_descriptor n = inr []) as H2.
  { intros n Hn. vm_compute in Hn.
    repeat (destruct Hn as [<-|Hn];
            [vm_compute; first [reflexivity | discriminate]|]).
    contradiction. }
  split; [exact H1|]. split; [exact H2|]. split.
  - exact (proj1 empty_component_is_omitted archive_empty_descriptor H1 H2).
  - split; [right; left; reflexivity|]. split; [reflexivity|].
    apply (proj2 empty_component_is_omitted
             (set_export (Some []) sample_capfile) COMPONENT_Export);
      [right; left; reflexivity | reflexivity].
Defined.

(** ** The Header and Applet records *)

(** Unfolds the integer fields down to the tests on the stream length. *)
Ltac unfold_fields :=
  unfold Int8ub, Int16ub, Int32ub, stream_read;
  cbn -[firstn skipn Nat.ltb Z.to_nat int_from_bytes].

Lemma run_bind {A B : Type} (c : Construct A) (f : A -> Construct B)
    (s : bytes) :
  runStateT (x <- c ;; f x) s =
  match runStateT c s with
  | inl e => inl e
  | inr (v, rest) => runStateT (f v) rest
  end.
Proof.
  cbn [bind Monad_Construct Monad_stateT runStateT Monad_either].
  destruct (runStateT c s) as [e|[v rest]]; reflexivity.
Qed.

Lemma Int8ub_run (n : byte) (r : bytes) :
  runStateT Int8ub (n :: r) = inr (int_of_byte n, r).
Proof. reflexivity. Qed.

Lemma LV_run (s : bytes) :
  runStateT LV s =
  match s with
  | [] => inl StreamError
  | n :: r =>
      if holds_LV (n :: r)
      then inr (firstn (Z.to_nat (int_of_byte n)) r,
                skipn (Z.to_nat (int_of_byte n)) r)
      else inl StreamError
  end.
Proof.
  destruct s as [|n r]; [reflexivity|].
  unfold LV. rewrite run_bind, Int8ub_run.
  unfold stream_read, holds_LV. cbn [runStateT].
  rewrite Nat.ltb_antisym.
  destruct (Z.to_nat (int_of_byte n) <=? List.length r)%nat; reflexivity.
Qed.

(** The Header declaration is its first fields followed by the optional
    LV field. *)
Lemma header_component_compact_run (data : bytes) :
  runStateT header_component_compact data =
  match runStateT header_up_to_package data with
  | inl e => inl e
  | inr (f, rest) =>
      match runStateT LV rest with
      | inr (v, rest') => inr (f (Some v), rest')
      | inl _ => inr (f None, rest)
      end
  end.
Proof.
  unfold header_component_compact, header_up_to_package, package_info,
    COptional.
  generalize LV. intros lv. unfold_fields.
  repeat match goal with
         | |- context [if ?c then _ else _] => destruct c; [reflexivity|]
         end.
  repeat (cbn -[firstn skipn Nat.ltb Z.to_nat int_from_bytes];
          match goal with
          | |- context [runStateT lv ?s] =>
              destruct (runStateT lv s) as [?|[? ?]]; try reflexivity
          end).
Qed.

Lemma parse_run {A : Type} (c : Construct A) (data : bytes) :
  parse c (Some data) =
  match runStateT c data with
  | inl e => inl e
  | inr (v, _) => inr v
  end.
Proof.
  unfold parse. destruct (runStateT c data) as [e|[v r]]; reflexivity.
Qed.

(** After the ten bytes of the fixed fields the rest of the Header is
    parsed from what follows, whatever the flags byte holds. *)
Lemma header_up_to_package_run (b0 b1 b2 b3 b4 b5 b6 b7 b8 fl : byte)
    (post : bytes) :
  runStateT header_up_to_package
    (b0 :: b1 :: b2 :: b3 :: b4 :: b5 :: b6 :: b7 :: b8 :: fl :: post) =
  match runStateT package_info post with
  | inl e => inl e
  | inr (package, rest) =>
      inr (Header.mk (int_from_bytes [b0]) (int_from_bytes [b1; b2])
             (int_from_bytes [b3; b4; b5; b6]) (int_from_bytes [b7])
             (int_from_bytes [b8]) (int_from_bytes [fl]) package,
           rest)
  end.
Proof.
  unfold header_up_to_package. generalize package_info. intros pkg.
  unfold Int8ub, Int16ub, Int32ub, stream_read.
  cbn -[int_from_bytes].
  destruct (runStateT pkg post) as [e|[v r]]; reflexivity.
Qed.

Lemma header_up_to_package_fields (data : bytes) f (rest : bytes) :
  runStateT header_up_to_package data = inr (f, rest) ->
  forall name, Header.package_name (f name) = name.
Proof.
  unfold header_up_to_package, package_info. generalize LV. intros lv.
  unfold_fields.
  repeat match goal with
         | |- context [if ?c then _ else _] => destruct c; [discriminate|]
         end.
  cbn -[firstn skipn Nat.ltb Z.to_nat int_from_bytes].
  match goal with
  | |- context [runStateT lv ?s] =>
      destruct (runStateT lv s) as [?|[? ?]]; [discriminate|]
  end.
  intros H. injection H as <- <-. reflexivity.
Qed.

(** C9, the claim refuted: behind the package sub-record of this Header
    one byte remains, a length byte 5 with nothing after it; the decoder
    accepts the component and [package_name] is absent. *)
Lemma truncated_package_name_is_absent :
  exists header f rest,
    parse header_component_compact (Some (sample_header ++ [x05])%list)
      = inr header /\
    runStateT header_up_to_package (sample_header ++ [x05])%list
      = inr (f, rest) /\
    rest = [x05] /\
    Header.package_name header = None.
Proof.
  do 3 eexists. split; [reflexivity|].
  split; [reflexivity|]. split; reflexivity.
Qed.

(** C9, amended.  For every byte sequence that the Header decoder accepts,
    [package_name] is present exactly when the bytes left after the package
    sub-record start with a whole LV field (a length byte followed by at
    least that many bytes); so it is absent when no bytes are left, and
    also when the bytes left are a cut-off LV field.  No flag bit takes
    part: two Headers that differ only in the flags byte decode to the same
    [package_name]. *)
Theorem package_name_presence :
  (forall (data : bytes) (header : Header.t),
      parse header_component_compact (Some data) = inr header ->
      exists f rest,
        runStateT header_up_to_package data = inr (f, rest) /\
        header = f (Header.package_name header) /\
        (Header.package_name header <> None <-> holds_LV rest = true) /\
        (rest = [] -> Header.package_name header = None))
  /\ (forall (fixed : bytes) (flags flags' : byte) (post : bytes)
             (header header' : Header.t),
         List.length fixed = 9%nat ->
         parse header_component_compact
           (Some (fixed ++ flags :: post)%list) = inr header ->
         parse header_component_compact
           (Some (fixed ++ flags' :: post)%list) = inr header' ->
         Header.package_name header' = Header.package_name header).
Proof.
  split.
  - intros data header.
    rewrite parse_run, header_component_compact_run.
    destruct (runStateT header_up_to_package data) as [e|[f rest]] eqn:Hrun;
      [discriminate|].
    pose proof (header_up_to_package_fields _ _ _ Hrun) as Hname.
    rewrite LV_run. intros H. exists f, rest. split; [reflexivity|].
    destruct rest as [|n r]; [|destruct (holds_LV (n :: r))];
      injection H as <-; rewrite !Hname.
    + split; [reflexivity|]. split; [|reflexivity].
      split; [intros Habs; exfalso; apply Habs; reflexivity | discriminate].
    + split; [reflexivity|]. split; [|discriminate].
      split; [reflexivity | discriminate].
    + split; [reflexivity|]. split; [|discriminate].
      split; [intros Habs; exfalso; apply Habs; reflexivity | discriminate].
  - intros fixed flags flags' post header header' Hlen.
    destruct fixed as [|b0 [|b1 [|b2 [|b3 [|b4 [|b5 [|b6 [|b7 [|b8 [|? ?]]]]]]]]]];
      try discriminate Hlen.
    cbn [app].
    rewrite !parse_run, !header_component_compact_run,
      !header_up_to_package_run.
    destruct (runStateT package_info post) as [e|[package rest]];
      [discriminate|].
    destruct (runStateT LV rest) as [e|[v rest']];
      intros H H'; injection H as <-; injection H' as <-; reflexivity.
Qed.

Lemma package_name_presence_witness :
  (exists header,
      parse header_component_compact (Some (sample_header ++ [x01; x41])%list)
        = inr header /\
      exists f rest,
        runStateT header_up_to_package (sample_header ++ [x01; x41])%list
          = inr (f, rest) /\
        header = f (Header.package_name header) /\
        (Header.package_name header <> None <-> holds_LV rest = true) /\
        (rest = [] -> Header.package_name header = None))
  /\
  (List.length (firstn 9 sample_header) = 9%nat /\
   parse header_component_compact
     (Some (firstn 9 sample_header ++ x00 :: skipn 10 sample_header)%list)
     = inr sample_header_record /\
   parse header_component_compact
     (Some (firstn 9 sample_header ++ xff :: skipn 10 sample_header)%list)
     = inr (Header.mk 1 15 0xDECAFFED 2 2 255
              (Package.mk 0 1 [xa0; x00; x00; x00; x62]) None) /\
   Header.package_name
     (Header.mk 1 15 0xDECAFFED 2 2 255
        (Package.mk 0 1 [xa0; x00; x00; x00; x62]) None)
   = Header.package_name sample_header_record).
Proof.
  split.
  - eexists. split; [reflexivity|].
    apply (proj1 package_name_presence). reflexivity.
  - split; [reflexivity|]. split; [reflexivity|]. split; [reflexivity|].
    apply (proj2 package_name_presence (firstn 9 sample_header) x00 xff
             (skipn 10 sample_header));
      reflexivity.
Defined.

(** ** [get_loadfile_aid] and [get_applet_aid] *)

(** C4. When the Header component of an archive object decodes, then with
    a magic field equal to 0xDECAFFED [get_loadfile_aid] returns the AID of
    the package sub-record, and with any other magic it raises the
    [ValueError] that reports the value found beside the expected
    0xDECAFFED; no default stands in for a wrong magic.  Constructed
    archives are among the objects covered. *)
Theorem get_loadfile_aid_magic (self : CapFile) (header : Header.t) :
  parse header_component_compact (component_header self) = inr header ->
  (Header.magic header = 0xDECAFFED ->
   get_loadfile_aid self = inr (Package.AID (Header.package header)))
  /\
  (Header.magic header <> 0xDECAFFED ->
   get_loadfile_aid self =
   inl (ValueError (lacks_magic_number (Header.magic header)))).
Proof.
  intros Hparse. unfold get_loadfile_aid. rewrite Hparse.
  change (bind (inr header) ?f) with (f header). cbv beta zeta.
  assert ((if Header.magic header =? 0 then 0 else Header.magic header)
          = Header.magic header) as ->.
  { destruct (Z.eqb_spec (Header.magic header) 0) as [->|]; reflexivity. }
  split; intros Hmagic.
  - rewrite Hmagic. reflexivity.
  - apply Z.eqb_neq in Hmagic. rewrite Hmagic. reflexivity.
Qed.

Lemma get_loadfile_aid_magic_witness :
  (parse header_component_compact (component_header sample_capfile)
     = inr sample_header_record /\
   Header.magic sample_header_record = 0xDECAFFED /\
   get_loadfile_aid sample_capfile
     = inr (Package.AID (Header.package sample_header_record)))
  /\
  (parse header_component_compact (component_header capfile_wrong_magic)
     = inr wrong_magic_record /\
   Header.magic wrong_magic_record <> 0xDECAFFED /\
   get_loadfile_aid capfile_wrong_magic
     = inl (ValueError (lacks_magic_number (Header.magic wrong_magic_record)))).
Proof.
  split.
  - split; [reflexivity|]. split; [reflexivity|].
    apply (proj1 (get_loadfile_aid_magic sample_capfile sample_header_record
                    eq_refl)).
    reflexivity.
  - split; [reflexivity|]. split; [vm_compute; discriminate|].
    apply (proj2 (get_loadfile_aid_magic capfile_wrong_magic
                    wrong_magic_record eq_refl)).
    vm_compute. discriminate.
Defined.

Lemma Array_length {A : Type} (subcon : Construct A) (count : nat) :
  forall s l rest,
    runStateT (Array count subcon) s = inr (l, rest) ->
    List.length l = count.
Proof.
  induction count as [|count IH]; intros s l rest.
  - cbn. intros H. injection H as <- _. reflexivity.
  - cbn [Array]. rewrite run_bind.
    destruct (runStateT subcon s) as [e|[x s1]]; [discriminate|].
    rewrite run_bind.
    destruct (runStateT (Array count subcon) s1) as [e|[xs s2]] eqn:E;
      [discriminate|].
    cbn. intros H. injection H as <- _. cbn [List.length].
    f_equal. eapply IH. eassumption.
Qed.

(** The decoded Applet record has exactly [count] applets. *)
Lemma applet_count (data : option bytes) (applet : Applet.t) :
  parse applet_component_compact data = inr applet ->
  0 <= Applet.count applet /\
  List.length (Applet.applets applet) = Z.to_nat (Applet.count applet).
Proof.
  unfold parse.
  set (s := match data with Some b => b | None => [] end). clearbody s.
  unfold applet_component_compact.
  rewrite run_bind.
  destruct s as [|b0 s]; [discriminate|]. rewrite Int8ub_run.
  rewrite run_bind.
  destruct (runStateT Int16ub s) as [e|[size s1]]; [discriminate|].
  rewrite run_bind.
  destruct s1 as [|n s1]; [discriminate|]. rewrite Int8ub_run.
  rewrite run_bind.
  destruct (runStateT (Array (Z.to_nat (int_of_byte n)) applet_entry) s1)
    as [e|[l s2]] eqn:E; [discriminate|].
  cbn. intros H. injection H as <-. cbn [Applet.count Applet.applets].
  split; [apply int_of_byte_range|].
  eapply Array_length. eassumption.
Qed.

(** What [get_applet_aid] does at every index, given an Applet component
    that decodes: the AID for [0 <= index < count] (and, counted from the
    end, for [-count <= index < 0]), the [ValueError] for [index > count],
    and the [IndexError] of the list for [index = count]. *)
Lemma get_applet_aid_cases (self : CapFile) (applet : Applet.t) (index : Z) :
  component_applet self <> None ->
  parse applet_component_compact (component_applet self) = inr applet ->
  (0 <= index < Applet.count applet ->
   exists entry,
     nth_error (Applet.applets applet) (Z.to_nat index) = Some entry /\
     get_applet_aid self index = inr (AppletEntry.AID entry))
  /\ (Applet.count applet < index ->
      get_applet_aid self index =
      inl (ValueError (applet_index index (Applet.count applet))))
  /\ (index = Applet.count applet ->
      get_applet_aid self index = inl IndexError).
Proof.
  intros Hsome Hparse.
  destruct (applet_count _ _ Hparse) as [Hpos Hlen].
  unfold get_applet_aid. rewrite Hparse.
  destruct (component_applet self); [|congruence]. cbn [is_None].
  change (bind (inr applet) ?f) with (f applet). cbv beta.
  repeat split.
  - intros Hidx.
    destruct (index >? Applet.count applet) eqn:E; [lia|].
    destruct (nth_error (Applet.applets applet) (Z.to_nat index))
      as [entry|] eqn:N.
    + exists entry. split; [reflexivity|].
      unfold getitem. destruct (index <? 0) eqn:E0; [lia|].
      rewrite E0, N. reflexivity.
    + apply nth_error_None in N. lia.
  - intros Hidx.
    destruct (index >? Applet.count applet) eqn:E; [reflexivity|lia].
  - intros ->.
    destruct (Applet.count applet >? Applet.count applet) eqn:E; [lia|].
    unfold getitem.
    destruct (Applet.count applet <? 0) eqn:E0; [lia|]. rewrite E0.
    destruct (nth_error (Applet.applets applet)
                (Z.to_nat (Applet.count applet))) eqn:N; [|reflexivity].
    assert (nth_error (Applet.applets applet)
              (Z.to_nat (Applet.count applet)) <> None) as N'
        by congruence.
    apply nth_error_Some in N'. lia.
Qed.

(** C3, the code at the failing input.  The Applet component of the sample
    archive decodes to one applet; at index 0 [get_applet_aid] returns its
    AID, at index 2 it raises the [ValueError] with index and count, and at
    index 1, which is [count], the check [index > count] lets the index
    pass and the list access raises [IndexError]. *)
Theorem get_applet_aid_at_count :
  exists self applet,
    CapFile_init sample_archive = inr self /\
    parse applet_component_compact (component_applet self) = inr applet /\
    Applet.count applet = 1 /\
    get_applet_aid self 0 = inr [xa0; x00; x00; x00; x62; x01] /\
    get_applet_aid self 2 = inl (ValueError (applet_index 2 1)) /\
    get_applet_aid self 1 = inl IndexError.
Proof.
  do 2 eexists. repeat split; reflexivity.
Qed.

(** ** More on the IJC splitter *)

Lemma unpack_BH_error (b : bytes) (e : exn) :
  unpack_BH (slice_to b 3) = inl e ->
  e = struct_error /\ (List.length b < 3)%nat.
Proof.
  destruct b as [|b0 [|b1 [|b2 b]]]; cbn; intros H;
    try discriminate H; injection H as <-; split; (reflexivity || lia).
Qed.

Lemma getitem_TAGS_cases (tag : Z) :
  0 <= tag ->
  (tag <= 12 /\ exists name, getitem TAGS (tag - 1) = inr name /\ In name TAGS)
  \/ (12 < tag /\ getitem TAGS (tag - 1) = inl IndexError).
Proof.
  intros Hpos. destruct (Z_le_gt_dec tag 12) as [Hle|Hgt].
  - left. split; [assumption|].
    destruct tag as [|q|q]; try lia.
    + eexists. split; [reflexivity|]. cbn. tauto.
    + do 4 (try destruct q as [q|q|]); try lia;
        (eexists; split; [reflexivity|]; cbn; tauto).
  - right. split; [lia|]. apply getitem_TAGS_above. lia.
Qed.

(** Every run of the loop, whatever the stream holds: what is written, what
    is left unread, and how the run ends. *)
Lemma ijc_to_cap_run (b : bytes) :
  forall out_zip p,
  exists written rest r,
    ijc_to_cap b out_zip p = Some ((out_zip ++ written)%list, r) /\
    b = (List.concat (map snd written) ++ rest)%list /\
    Forall (fun e => exists name, In name TAGS /\ fst e = entry_name p name)
      written /\
    match r with
    | inr _ => rest = []
    | inl e =>
        (e = struct_error /\ (0 < List.length rest < 3)%nat) \/
        (e = IndexError /\
         exists t hi lo rest',
           rest = t :: hi :: lo :: rest' /\ 12 < int_of_byte t)
    end.
Proof.
  remember (List.length b) as n eqn:Hn.
  revert b Hn. induction n as [n IH] using lt_wf_ind.
  intros b Hn out_zip p. rewrite ijc_to_cap_unfold.
  destruct b as [|x b].
  { exists [], [], (inr tt). rewrite app_nil_r. repeat split. constructor. }
  destruct (unpack_BH (slice_to (x :: b) 3)) as [e|[tag size]] eqn:E.
  { apply unpack_BH_error in E as [-> Hlen].
    exists [], (x :: b), (inl struct_error). rewrite app_nil_r.
    repeat split; [constructor|]. left. cbn [List.length] in *.
    split; [reflexivity | lia]. }
  pose proof (unpack_BH_size_nonneg _ _ _ E) as [Htag Hsize].
  destruct (getitem_TAGS_cases tag (proj1 Htag))
    as [(_ & name & -> & Hname) | (Hgt & ->)].
  - pose proof (length_slice_from_lt b x (3 + size)) as Hlt.
    destruct (IH (List.length (slice_from (x :: b) (3 + size)))
                ltac:(subst n; apply Hlt; lia) _ eq_refl
                (writestr out_zip (p ++ "/javacard/" ++ name ++ ".cap")
                   (slice_to (x :: b) (3 + size))) p)
      as (written & rest & r & Hrun & Hb & Hnames & Hend).
    exists ((entry_name p name, slice_to (x :: b) (3 + size)) :: written),
      rest, r.
    split; [|split; [|split]].
    + rewrite Hrun. unfold writestr, entry_name. rewrite <- app_assoc.
      reflexivity.
    + cbn [map snd List.concat]. rewrite <- app_assoc, <- Hb.
      unfold slice_to, slice_from. symmetry. apply firstn_skipn.
    + constructor; [|assumption]. exists name. split; [assumption|reflexivity].
    + assumption.
  - exists [], (x :: b), (inl IndexError). rewrite app_nil_r.
    repeat split; [constructor|]. right. split; [reflexivity|].
    destruct b as [|hi [|lo b]]; try discriminate E.
    exists x, hi, lo, b. split; [reflexivity|].
    cbn in E. injection E as <- _. assumption.
Qed.

(** X1. On every input the splitter comes to an end, and what it does to
    the archive is to append: the entries already there stay, the data of
    the appended entries, joined in order, are the front of the stream, and
    on a normal return they are the whole stream, every byte written once. *)
Theorem ijc_to_cap_conserves_stream (b : bytes) (out_zip : ZipFile)
    (p : string) :
  exists written rest r,
    ijc_to_cap b out_zip p = Some ((out_zip ++ written)%list, r) /\
    b = (List.concat (map snd written) ++ rest)%list /\
    (r = inr tt -> rest = []).
Proof.
  destruct (ijc_to_cap_run b out_zip p)
    as (written & rest & r & Hrun & Hb & _ & Hend).
  exists written, rest, r. repeat split; try assumption.
  intros ->. exact Hend.
Qed.

(** X2. Whatever the stream holds, every entry the splitter writes is named
    by the prefix, "/javacard/", one of the twelve names of [TAGS] and
    ".cap"; and the splitter raises nothing but [struct.error], with one or
    two bytes left unread, and [IndexError], with the unread bytes starting
    at a tag above 12. *)
Theorem ijc_to_cap_names_and_errors (b : bytes) (out_zip : ZipFile)
    (p : string) :
  exists written rest r,
    ijc_to_cap b out_zip p = Some ((out_zip ++ written)%list, r) /\
    b = (List.concat (map snd written) ++ rest)%list /\
    Forall (fun e => exists name, In name TAGS /\ fst e = entry_name p name)
      written /\
    forall e, r = inl e ->
      (e = struct_error /\ (0 < List.length rest < 3)%nat) \/
      (e = IndexError /\
       exists t hi lo rest',
         rest = t :: hi :: lo :: rest' /\ 12 < int_of_byte t).
Proof.
  destruct (ijc_to_cap_run b out_zip p)
    as (written & rest & r & Hrun & Hb & Hnames & Hend).
  exists written, rest, r. repeat split; try assumption.
  intros e ->. exact Hend.
Qed.

(** X3. When one or two bytes are left behind well-formed records, too few
    for a record prefix, the splitter raises [struct.error]; the records
    before are written. *)
Theorem ijc_short_prefix_raises
    (records : list ijc_record) (tail : bytes) (out_zip : ZipFile)
    (p : string) :
  Forall well_formed records ->
  (0 < List.length tail < 3)%nat ->
  ijc_to_cap (List.concat (map encode records) ++ tail)%list out_zip p =
  Some ((out_zip ++ map (emitted p) records)%list, inl struct_error).
Proof.
  intros Hwf Hlen.
  rewrite ijc_to_cap_records by assumption.
  rewrite ijc_to_cap_unfold.
  destruct tail as [|b0 [|b1 [|b2 tail]]]; cbn [List.length] in Hlen;
    try lia; reflexivity.
Qed.

Lemma ijc_short_prefix_raises_witness :
  Forall well_formed sample_records /\
  (0 < List.length [x01; x00] < 3)%nat /\
  ijc_to_cap (List.concat (map encode sample_records) ++ [x01; x00])%list
    [] "foo" =
  Some (([] ++ map (emitted "foo") sample_records)%list, inl struct_error).
Proof.
  split; [exact sample_records_well_formed|].
  split; [cbn; lia|].
  apply (ijc_short_prefix_raises sample_records [x01; x00] [] "foo").
  - exact sample_records_well_formed.
  - cbn; lia.
Defined.

(** X4. A record whose tag byte is 0 is not refused: [TAGS[0-1]] is the
    last name of the table, so the record, with its whole payload, is
    written as Debug and the splitter goes on behind it. *)
Theorem ijc_tag_zero_written_as_Debug
    (records : list ijc_record) (hi lo : byte) (payload tail : bytes)
    (out_zip : ZipFile) (p : string) :
  Forall well_formed records ->
  Z.of_nat (List.length payload) = int_of_byte hi * 256 + int_of_byte lo ->
  ijc_to_cap
    (List.concat (map encode records) ++ x00 :: hi :: lo :: payload ++ tail)%list
    out_zip p =
  ijc_to_cap tail
    (out_zip ++ map (emitted p) records
       ++ [(entry_name p "Debug", x00 :: hi :: lo :: payload)])%list
    p.
Proof.
  intros Hwf Hlen.
  rewrite ijc_to_cap_records by assumption.
  rewrite ijc_to_cap_unfold.
  change (slice_to (x00 :: hi :: lo :: payload ++ tail) 3) with [x00; hi; lo].
  cbn [unpack_BH].
  change (getitem TAGS (int_of_byte x00 - 1)) with (@inr exn _ "Debug").
  unfold slice_from, slice_to, writestr, entry_name. rewrite <- Hlen.
  replace (Z.to_nat (3 + Z.of_nat (List.length payload)))
    with (3 + List.length payload)%nat by lia.
  cbn [Init.Nat.add firstn skipn].
  rewrite firstn_app, firstn_all, Nat.sub_diag, skipn_app, skipn_all,
    Nat.sub_diag.
  cbn [firstn skipn app]. rewrite app_nil_r, <- app_assoc. reflexivity.
Qed.

Lemma ijc_tag_zero_written_as_Debug_witness :
  Forall well_formed sample_records /\
  Z.of_nat (List.length [xaa]) = int_of_byte x00 * 256 + int_of_byte x01 /\
  ijc_to_cap
    (List.concat (map encode sample_records)
       ++ x00 :: x00 :: x01 :: [xaa] ++ [x02; x00; x00])%list
    [] "foo" =
  ijc_to_cap [x02; x00; x00]
    ([] ++ map (emitted "foo") sample_records
        ++ [(entry_name "foo" "Debug", [x00; x00; x01; xaa])])%list
    "foo".
Proof.
  split; [exact sample_records_well_formed|].
  split; [reflexivity|].
  apply (ijc_tag_zero_written_as_Debug sample_records x00 x01 [xaa]
           [x02; x00; x00] [] "foo").
  - exact sample_records_well_formed.
  - reflexivity.
Defined.

(** ** More on the classification of entry names *)

Lemma Component_eq_dec (c c' : Component) : {c = c'} + {c <> c'}.
Proof. decide equality. Defined.

(** X5. One entry name fills at most one slot: when the step of the loop
    of [__init__] changes the slot of a component, the name matches that
    component, the slot holds the data the archive has under the name, and
    every other slot is as before. *)
Theorem classify_fills_one_slot
    (cap : ZipFile) (self self' : CapFile) (filename : string) (c : Component) :
  classify cap self filename = inr self' ->
  slot c self' <> slot c self ->
  matches c filename = true /\
  slot c self' = entry_data cap filename /\
  forall c', c' <> c -> slot c' self' = slot c' self.
Proof.
  rewrite classify_by_table. intros Hcl Hchanged.
  destruct (find (fun c => matches c filename) all_components) as [c0|] eqn:F.
  - destruct (read cap filename) as [e|data] eqn:Hread; [discriminate Hcl|].
    cbn in Hcl. injection Hcl as <-.
    destruct (Component_eq_dec c c0) as [->|Hne].
    + apply find_some in F as [_ F]. split; [assumption|]. split.
      * rewrite slot_store_same. unfold entry_data. rewrite Hread. reflexivity.
      * intros c' Hc'. apply slot_store_other. assumption.
    + exfalso. apply Hchanged. apply slot_store_other. assumption.
  - cbn in Hcl. injection Hcl as <-. exfalso. apply Hchanged. reflexivity.
Qed.

Lemma classify_fills_one_slot_witness :
  classify sample_archive class_defaults "foo/javacard/Method.cap"
    = inr (set_method (Some [x07; x00; x01; xd7]) class_defaults) /\
  slot COMPONENT_Method (set_method (Some [x07; x00; x01; xd7]) class_defaults)
    <> slot COMPONENT_Method class_defaults /\
  matches COMPONENT_Method "foo/javacard/Method.cap" = true /\
  slot COMPONENT_Method (set_method (Some [x07; x00; x01; xd7]) class_defaults)
    = entry_data sample_archive "foo/javacard/Method.cap" /\
  forall c', c' <> COMPONENT_Method ->
    slot c' (set_method (Some [x07; x00; x01; xd7]) class_defaults)
    = slot c' class_defaults.
Proof.
  split; [reflexivity|]. split; [cbn; discriminate|].
  apply (classify_fills_one_slot sample_archive class_defaults
           (set_method (Some [x07; x00; x01; xd7]) class_defaults)
           "foo/javacard/Method.cap" COMPONENT_Method).
  - reflexivity.
  - cbn; discriminate.
Defined.

Lemma list_ascii_of_string_app (s1 s2 : string) :
  list_ascii_of_string (s1 ++ s2)
  = (list_ascii_of_string s1 ++ list_ascii_of_string s2)%list.
Proof.
  induction s1 as [|a s1 IH]; cbn; [reflexivity|]. rewrite IH. reflexivity.
Qed.

Lemma string_of_list_ascii_app (l1 l2 : list ascii) :
  string_of_list_ascii (l1 ++ l2)
  = string_of_list_ascii l1 ++ string_of_list_ascii l2.
Proof.
  induction l1 as [|a l1 IH]; cbn; [reflexivity|]. rewrite IH. reflexivity.
Qed.


Lemma starts_with_app (a l : list ascii) : starts_with a (a ++ l) = true.
Proof.
  induction a as [|x a IH]; cbn; [reflexivity|].
  rewrite Ascii.eqb_refl. exact IH.
Qed.

Lemma starts_with_split (a l : list ascii) :
  starts_with a l = true -> exists l', l = (a ++ l')%list.
Proof.
  revert l. induction a as [|x a IH]; intros l H.
  - exists l. reflexivity.
  - destruct l as [|y l]; [discriminate H|]. cbn in H.
    apply andb_true_iff in H as [Hxy H]. apply Ascii.eqb_eq in Hxy as ->.
    destruct (IH l H) as [l' ->]. exists l'. reflexivity.
Qed.

(** [s.endswith(suffix)] says that [s] is something followed by [suffix]. *)
Lemma endswith_iff (s suffix : string) :
  endswith s suffix = true <-> exists front, s = front ++ suffix.
Proof.
  unfold endswith. split.
  - intros H. apply starts_with_split in H as [l' H].
    apply (f_equal (@rev ascii)) in H.
    rewrite rev_involutive, rev_app_distr, rev_involutive in H.
    exists (string_of_list_ascii (rev l')).
    rewrite <- (string_of_list_ascii_of_string s), H,
      string_of_list_ascii_app, string_of_list_ascii_of_string.
    reflexivity.
  - intros [front ->].
    rewrite list_ascii_of_string_app, rev_app_distr. apply starts_with_app.
Qed.



(** X7. Construction, in full: it raises for the first component, in the
    order Header, Directory, Import, ConstantPool, Class, Method,
    StaticField, ReferenceLocation, Descriptor, that no entry name matches,
    whatever else is missing; with none missing it returns the object whose
    slots hold, each, the data of the last matching entry.  It raises
    nothing else. *)
Theorem CapFile_init_reports_first_missing (cap : ZipFile) :
  match find (fun c => is_None (classified cap c)) check_order with
  | Some c =>
      CapFile_init cap = inl (ValueError (component_missing (reported_name c)))
  | None =>
      exists self,
        CapFile_init cap = inr self /\
        forall c, slot c self = classified cap c
  end.
Proof.
  destruct (CapFile_init_eq cap) as (self & Hslot & Hinit).
  assert (find (fun c => is_None (classified cap c)) check_order
          = first_missing self) as ->.
  { unfold first_missing, check_order. cbn [find]. rewrite !Hslot.
    reflexivity. }
  destruct (first_missing self); [assumption|].
  exists self. split; assumption.
Qed.

(** ** The splitter followed by construction *)

Lemma append_assoc (a b c : string) : (a ++ b) ++ c = a ++ (b ++ c).
Proof.
  induction a as [|x a IH]; cbn; [reflexivity|]. rewrite IH. reflexivity.
Qed.

Lemma lower_app (a b : string) : lower (a ++ b) = lower a ++ lower b.
Proof.
  induction a as [|x a IH]; cbn; [reflexivity|]. rewrite IH. reflexivity.
Qed.

Lemma table_name_component (c : Component) :
  table_name (component_tag c) = component_name c.
Proof. destruct c; reflexivity. Qed.

Lemma component_tag_injective (c c' : Component) :
  component_tag c = component_tag c' -> c = c'.
Proof. destruct c, c'; intros H; try reflexivity; discriminate H. Qed.

Lemma tag_component (tag : Z) :
  1 <= tag <= 12 -> exists c, tag = component_tag c.
Proof.
  intros H. destruct (component_of_tag tag) as [c|] eqn:E.
  - apply find_some in E as [_ E]. apply Z.eqb_eq in E. eauto.
  - exfalso. destruct tag as [|q|q]; try lia.
    do 4 (try destruct q as [q|q|]); try discriminate E; lia.
Qed.

(** The name the splitter gives to a component matches that component and
    no other one, whatever the prefix. *)
Lemma matches_entry_name (c c' : Component) (p : string) :
  matches c (entry_name p (component_name c')) = (component_tag c' =? component_tag c).
Proof.
  assert (matches c' (entry_name p (component_name c')) = true) as Hown.
  { unfold matches, entry_name. apply endswith_iff.
    exists (lower (p ++ "/javacard/")).
    rewrite <- lower_app, append_assoc. reflexivity. }
  destruct (Z.eqb_spec (component_tag c') (component_tag c)) as [E|E].
  - apply component_tag_injective in E as <-. exact Hown.
  - destruct (matches c (entry_name p (component_name c'))) eqn:M;
      [|reflexivity].
    exfalso. apply E. f_equal. eapply matches_unique; eassumption.
Qed.

Lemma entry_name_eqb (c c' : Component) (p : string) :
  String.eqb (entry_name p (component_name c')) (entry_name p (component_name c))
  = (component_tag c' =? component_tag c).
Proof.
  destruct (Z.eqb_spec (component_tag c') (component_tag c)) as [E|E].
  - apply component_tag_injective in E as <-. apply String.eqb_refl.
  - apply String.eqb_neq. intros Heq. apply E.
    pose proof (matches_entry_name c c p) as M.
    rewrite <- Heq, matches_entry_name, Z.eqb_refl in M.
    apply Z.eqb_eq. exact M.
Qed.

Lemma read_emitted (p : string) (records : list ijc_record) (c : Component) :
  Forall well_formed records ->
  read (map (emitted p) records) (entry_name p (component_name c)) =
  match last_with_tag (component_tag c) records with
  | Some r => inr (encode r)
  | None => inl KeyError
  end.
Proof.
  induction 1 as [|r records [Hr _] _ IH]; [reflexivity|].
  cbn [map read emitted last_with_tag]. rewrite IH.
  destruct (last_with_tag (component_tag c) records); [reflexivity|].
  destruct (tag_component _ Hr) as [cr ->].
  rewrite table_name_component, entry_name_eqb.
  destruct (component_tag cr =? component_tag c); reflexivity.
Qed.

Lemma last_match_emitted (p : string) (records : list ijc_record)
    (c : Component) :
  Forall well_formed records ->
  last_match c (namelist (map (emitted p) records)) =
  match last_with_tag (component_tag c) records with
  | Some _ => Some (entry_name p (component_name c))
  | None => None
  end.
Proof.
  induction 1 as [|r records [Hr _] _ IH]; [reflexivity|].
  cbn [map namelist emitted fst last_match last_with_tag].
  fold (namelist (map (emitted p) records)). rewrite IH.
  destruct (last_with_tag (component_tag c) records); [reflexivity|].
  destruct (tag_component _ Hr) as [cr ->].
  rewrite table_name_component, matches_entry_name.
  destruct (Z.eqb_spec (component_tag cr) (component_tag c)) as [E|E];
    [|reflexivity].
  apply component_tag_injective in E as ->. reflexivity.
Qed.

Lemma classified_emitted (p : string) (records : list ijc_record)
    (c : Component) :
  Forall well_formed records ->
  classified (map (emitted p) records) c =
  option_map encode (last_with_tag (component_tag c) records).
Proof.
  intros Hwf. unfold classified, entry_data.
  rewrite last_match_emitted by assumption.
  pose proof (read_emitted p records c Hwf) as Hread.
  destruct (last_with_tag (component_tag c) records); [|reflexivity].
  rewrite Hread. reflexivity.
Qed.


Lemma sample_stream_well_formed : Forall well_formed sample_stream.
Proof. repeat constructor; vm_compute; congruence. Defined.


(** X9. End to end: when the stream holds a record for each of the nine
    mandatory tags, the archive the splitter writes can be constructed,
    and [get_loadfile] returns the hex string of the records (for each
    component the last one with its tag) put from tag order into load
    order, Debug left out. *)
Theorem split_then_loadfile (records : list ijc_record) (p : string) :
  Forall well_formed records ->
  (forall c, mandatory c = true ->
             last_with_tag (component_tag c) records <> None) ->
  exists out_zip self,
    ijc_to_cap (List.concat (map encode records)) [] p
      = Some (out_zip, inr tt) /\
    CapFile_init out_zip = inr self /\
    get_loadfile self =
    inr (Str (b2h (List.concat
      (map (fun c => present (option_map encode
                                (last_with_tag (component_tag c) records)))
         loadfile_order)))).
Proof.
  intros Hwf Hall. exists (map (emitted p) records).
  destruct (CapFile_init_eq (map (emitted p) records))
    as (self & Hslot & Hinit).
  assert (forall c, slot c self =
            option_map encode (last_with_tag (component_tag c) records))
    as Hslot'.
  { intros c. rewrite Hslot. apply classified_emitted. assumption. }
  assert (forall c, mandatory c = true -> slot c self <> None) as Hm.
  { intros c Hc. rewrite Hslot'. specialize (Hall c Hc).
    destruct (last_with_tag (component_tag c) records);
      [discriminate | congruence]. }
  exists self. split; [|split].
  - rewrite <- (app_nil_r (List.concat (map encode records))).
    rewrite ijc_to_cap_records by assumption.
    apply ijc_to_cap_unfold.
  - rewrite Hinit.
    destruct (first_missing self) as [c|] eqn:F; [|reflexivity].
    apply first_missing_Some in F as [Hc Hnone].
    exfalso. exact (Hm c Hc Hnone).
  - rewrite (get_loadfile_bytes self Hm). unfold loadfile_bytes.
    do 4 f_equal. apply map_ext. intros c. rewrite Hslot'. reflexivity.
Qed.

Lemma split_then_loadfile_witness :
  Forall well_formed sample_stream /\
  (forall c, mandatory c = true ->
             last_with_tag (component_tag c) sample_stream <> None) /\
  exists out_zip self,
    ijc_to_cap (List.concat (map encode sample_stream)) [] "foo"
      = Some (out_zip, inr tt) /\
    CapFile_init out_zip = inr self /\
    get_loadfile self =
    inr (Str (b2h (List.concat
      (map (fun c => present (option_map encode
                                (last_with_tag (component_tag c) sample_stream)))
         loadfile_order)))).
Proof.
  assert (forall c, mandatory c = true ->
             last_with_tag (component_tag c) sample_stream <> None) as H.
  { intros c Hc. destruct c; try discriminate Hc; vm_compute; discriminate. }
  split; [exact sample_stream_well_formed|]. split; [exact H|].
  exact (split_then_loadfile sample_stream "foo" sample_stream_well_formed H).
Defined.

(** ** The wire form of the Header and Applet records *)

Lemma int_from_bytes_app (l : bytes) (x : byte) :
  int_from_bytes (l ++ [x])%list = int_from_bytes l * 256 + int_of_byte x.
Proof. unfold int_from_bytes. rewrite fold_left_app. reflexivity. Qed.

Lemma length_int_to_bytes (n : nat) :
  forall z, List.length (int_to_bytes n z) = n.
Proof.
  induction n as [|n IH]; intros z; cbn [int_to_bytes]; [reflexivity|].
  rewrite length_app, IH. cbn. lia.
Qed.

(** [int.from_bytes] undoes [int.to_bytes] on the integers that fit. *)
Lemma int_from_to_bytes (n : nat) :
  forall z, 0 <= z < 256 ^ Z.of_nat n -> int_from_bytes (int_to_bytes n z) = z.
Proof.
  induction n as [|n IH]; intros z Hz.
  - cbn in *. lia.
  - cbn [int_to_bytes]. rewrite int_from_bytes_app.
    rewrite Nat2Z.inj_succ, Z.pow_succ_r in Hz by lia.
    rewrite IH, int_of_byte_of_int.
    + rewrite (Z.div_mod z 256) at 3 by lia. lia.
    + apply Z.mod_pos_bound. lia.
    + split; [apply Z.div_pos; lia|].
      apply Z.div_lt_upper_bound; lia.
Qed.

Lemma stream_read_app (l tail : bytes) :
  runStateT (stream_read (List.length l)) (l ++ tail)%list = inr (l, tail).
Proof.
  unfold stream_read. cbn [runStateT].
  rewrite length_app.
  destruct (Nat.ltb_spec (List.length l + List.length tail) (List.length l));
    [lia|].
  rewrite firstn_app, firstn_all, Nat.sub_diag, skipn_app, skipn_all,
    Nat.sub_diag.
  cbn [firstn skipn]. rewrite app_nil_r. reflexivity.
Qed.

(** An integer field reads back the integer its bytes were made from. *)
Lemma int_field_run (n : nat) (z : Z) (tail : bytes) :
  0 <= z < 256 ^ Z.of_nat n ->
  runStateT (b <- stream_read n ;; ret (int_from_bytes b))
    (int_to_bytes n z ++ tail)%list = inr (z, tail).
Proof.
  intros Hz. rewrite run_bind.
  rewrite <- (length_int_to_bytes n z) at 1.
  rewrite stream_read_app.
  cbn [runStateT ret Monad_Construct Monad_stateT Monad_either].
  rewrite int_from_to_bytes by assumption. reflexivity.
Qed.

Lemma LV_encode_run (v tail : bytes) :
  (List.length v < 256)%nat ->
  runStateT LV (encode_LV v ++ tail)%list = inr (v, tail).
Proof.
  intros Hv. unfold LV, encode_LV. rewrite run_bind, <- app_assoc.
  unfold Int8ub. rewrite int_field_run by (cbn; lia).
  rewrite Nat2Z.id. apply stream_read_app.
Qed.

Lemma package_info_run (pkg : Package.t) (tail : bytes) :
  0 <= Package.minor_version pkg < 256 ->
  0 <= Package.major_version pkg < 256 ->
  (List.length (Package.AID pkg) < 256)%nat ->
  runStateT package_info
    (int_to_bytes 1 (Package.minor_version pkg)
     ++ int_to_bytes 1 (Package.major_version pkg)
     ++ encode_LV (Package.AID pkg) ++ tail)%list = inr (pkg, tail).
Proof.
  intros Hmin Hmaj Haid. unfold package_info, Int8ub.
  rewrite run_bind, int_field_run by (cbn; lia).
  rewrite run_bind, int_field_run by (cbn; lia).
  rewrite run_bind, LV_encode_run by assumption.
  destruct pkg. reflexivity.
Qed.

Lemma header_up_to_package_encode_run (h : Header.t) (tail : bytes) :
  header_in_range h ->
  runStateT header_up_to_package
    (int_to_bytes 1 (Header.tag h) ++ int_to_bytes 2 (Header.size h)
     ++ int_to_bytes 4 (Header.magic h)
     ++ int_to_bytes 1 (Header.minor_version h)
     ++ int_to_bytes 1 (Header.major_version h)
     ++ int_to_bytes 1 (Header.flags h)
     ++ int_to_bytes 1 (Package.minor_version (Header.package h))
     ++ int_to_bytes 1 (Package.major_version (Header.package h))
     ++ encode_LV (Package.AID (Header.package h)) ++ tail)%list
  = inr (Header.mk (Header.tag h) (Header.size h) (Header.magic h)
           (Header.minor_version h) (Header.major_version h)
           (Header.flags h) (Header.package h),
         tail).
Proof.
  intros (Ht & Hs & Hm & Hmi & Hma & Hf & Hpmi & Hpma & Haid & _).
  unfold header_up_to_package, Int8ub, Int16ub, Int32ub.
  rewrite run_bind, int_field_run by (cbn; lia).
  rewrite run_bind, int_field_run by (cbn; lia).
  rewrite run_bind, int_field_run by (cbn; lia).
  rewrite run_bind, int_field_run by (cbn; lia).
  rewrite run_bind, int_field_run by (cbn; lia).
  rewrite run_bind, int_field_run by (cbn; lia).
  rewrite run_bind, package_info_run by assumption.
  reflexivity.
Qed.

(** X10. The Header declaration reads back what the wire form was made
    from: for every Header record whose fields fit their widths, with or
    without a package name, decoding its bytes gives the record again.
    Nothing is asked of the values: neither the tag nor the size nor the
    magic is checked by the decoder. *)
Theorem header_decode_encode (h : Header.t) :
  header_in_range h ->
  parse header_component_compact (Some (encode_header h)) = inr h.
Proof.
  intros Hrange.
  pose proof Hrange as (_ & _ & _ & _ & _ & _ & _ & _ & _ & Hname).
  rewrite parse_run, header_component_compact_run. unfold encode_header.
  destruct (Header.package_name h) as [name|] eqn:En.
  - rewrite <- (app_nil_r (encode_LV name)).
    repeat rewrite (app_assoc _ _ []).
    rewrite <- !app_assoc.
    rewrite (header_up_to_package_encode_run _ _ Hrange).
    rewrite LV_encode_run by assumption.
    destruct h. cbn in En. subst. reflexivity.
  - rewrite (header_up_to_package_encode_run _ _ Hrange).
    destruct h. cbn in En. subst. reflexivity.
Qed.

Lemma sample_named_header_in_range : header_in_range sample_named_header.
Proof. unfold header_in_range. cbn. repeat split; lia. Defined.

Lemma header_decode_encode_witness :
  header_in_range sample_named_header /\
  parse header_component_compact (Some (encode_header sample_named_header))
    = inr sample_named_header.
Proof.
  split; [exact sample_named_header_in_range|].
  exact (header_decode_encode sample_named_header sample_named_header_in_range).
Defined.

Lemma applet_entry_run (e : AppletEntry.t) (tail : bytes) :
  applet_entry_in_range e ->
  runStateT applet_entry (encode_applet_entry e ++ tail)%list = inr (e, tail).
Proof.
  intros [Haid Hoff]. unfold applet_entry, encode_applet_entry, Int16ub.
  rewrite <- app_assoc.
  rewrite run_bind, LV_encode_run by assumption.
  rewrite run_bind, int_field_run by (cbn; lia).
  destruct e. reflexivity.
Qed.

Lemma Array_encode_run (entries : list AppletEntry.t) (tail : bytes) :
  Forall applet_entry_in_range entries ->
  runStateT (Array (List.length entries) applet_entry)
    (List.concat (map encode_applet_entry entries) ++ tail)%list
  = inr (entries, tail).
Proof.
  induction 1 as [|e entries He _ IH]; [reflexivity|].
  cbn [List.length Array map List.concat]. rewrite <- app_assoc.
  rewrite run_bind, applet_entry_run by assumption.
  rewrite run_bind, IH. reflexivity.
Qed.

Lemma applet_encode_run (a : Applet.t) (tail : bytes) :
  applet_in_range a ->
  runStateT applet_component_compact (encode_applet a ++ tail)%list
  = inr (a, tail).
Proof.
  intros (Ht & Hs & Hc & Hc' & Hentries).
  unfold applet_component_compact, encode_applet, Int8ub, Int16ub.
  rewrite <- !app_assoc.
  rewrite run_bind, int_field_run by (cbn; lia).
  rewrite run_bind, int_field_run by (cbn; lia).
  rewrite run_bind, int_field_run by (cbn; lia).
  rewrite run_bind, Hc, Nat2Z.id, Array_encode_run by assumption.
  destruct a. cbn in *. subst. reflexivity.
Qed.

(** X11. The Applet declaration reads back what the wire form was made
    from: for every Applet record with up to 255 applets whose fields fit
    their widths, decoding its bytes, followed by any bytes whatever, gives
    the record again.  The bytes behind the last applet are ignored, and
    the tag and size fields are taken as they come. *)
Theorem applet_decode_encode (a : Applet.t) (tail : bytes) :
  applet_in_range a ->
  parse applet_component_compact (Some (encode_applet a ++ tail)%list) = inr a.
Proof.
  intros Hrange. rewrite parse_run, applet_encode_run by assumption.
  reflexivity.
Qed.

Lemma sample_applets_in_range : applet_in_range sample_applets.
Proof.
  unfold applet_in_range. cbn.
  repeat split; try lia; repeat constructor; cbn; lia.
Defined.

Lemma applet_decode_encode_witness :
  applet_in_range sample_applets /\
  parse applet_component_compact
    (Some (encode_applet sample_applets ++ [xff; xff])%list)
  = inr sample_applets.
Proof.
  split; [exact sample_applets_in_range|].
  exact (applet_decode_encode sample_applets [xff; xff]
           sample_applets_in_range).
Defined.

Lemma getitem_nth {A : Type} (l : list A) (i : nat) (x : A) :
  nth_error l i = Some x -> getitem l (Z.of_nat i) = inr x.
Proof.
  intros H. unfold getitem.
  destruct (Z.of_nat i <? 0) eqn:E; [apply Z.ltb_lt in E; lia|].
  rewrite E, Nat2Z.id, H.
  reflexivity.
Qed.

(** X12. [get_applet_aid] on the wire form: when the Applet component is
    the bytes of an Applet record (any bytes behind it), then for every
    position [i] of the record's applets [get_applet_aid(i)] is the AID
    of the applet at that position. *)
Theorem get_applet_aid_by_index
    (self : CapFile) (a : Applet.t) (tail : bytes) (i : nat)
    (entry : AppletEntry.t) :
  applet_in_range a ->
  component_applet self = Some (encode_applet a ++ tail)%list ->
  nth_error (Applet.applets a) i = Some entry ->
  get_applet_aid self (Z.of_nat i) = inr (AppletEntry.AID entry).
Proof.
  intros Hrange Hself Hnth. unfold get_applet_aid.
  rewrite Hself. cbn [is_None].
  rewrite parse_run, applet_encode_run by assumption.
  change (bind (inr a) ?f) with (f a). cbv beta.
  destruct Hrange as (_ & _ & Hc & _ & _).
  assert (i < List.length (Applet.applets a))%nat as Hi
      by (apply nth_error_Some; congruence).
  destruct (Z.of_nat i >? Applet.count a) eqn:E; [lia|].
  rewrite (getitem_nth _ _ _ Hnth). reflexivity.
Qed.

Lemma get_applet_aid_by_index_witness :
  applet_in_range sample_applets /\
  component_applet
    (set_applet (Some (encode_applet sample_applets ++ [])%list)
       sample_capfile)
    = Some (encode_applet sample_applets ++ [])%list /\
  nth_error (Applet.applets sample_applets) 1
    = Some (AppletEntry.mk [xa0; x00; x00; x00; x62; x02] 300) /\
  get_applet_aid
    (set_applet (Some (encode_applet sample_applets ++ [])%list)
       sample_capfile)
    (Z.of_nat 1)
  = inr (AppletEntry.AID (AppletEntry.mk [xa0; x00; x00; x00; x62; x02] 300)).
Proof.
  split; [exact sample_applets_in_range|].
  split; [reflexivity|]. split; [reflexivity|].
  apply (get_applet_aid_by_index _ sample_applets [] 1%nat).
  - exact sample_applets_in_range.
  - reflexivity.
  - reflexivity.
Defined.

(** X13. With an Applet component that decodes, [get_applet_aid(index)]
    returns the AID of applet [index] for [0 <= index < count], raises the
    [ValueError] with the index and the count for [index > count], and for
    [index = count] passes the check and raises the [IndexError] of the
    list: the decoded record has exactly [count] applets. *)
Theorem get_applet_aid_index_ranges
    (self : CapFile) (applet : Applet.t) (index : Z) :
  component_applet self <> None ->
  parse applet_component_compact (component_applet self) = inr applet ->
  List.length (Applet.applets applet) = Z.to_nat (Applet.count applet) /\
  (0 <= index < Applet.count applet ->
   exists entry,
     nth_error (Applet.applets applet) (Z.to_nat index) = Some entry /\
     get_applet_aid self index = inr (AppletEntry.AID entry))
  /\ (Applet.count applet < index ->
      get_applet_aid self index =
      inl (ValueError (applet_index index (Applet.count applet))))
  /\ (index = Applet.count applet ->
      get_applet_aid self index = inl IndexError).
Proof.
  intros Hsome Hparse. split.
  - apply (applet_count _ _ Hparse).
  - apply get_applet_aid_cases; assumption.
Qed.

Lemma get_applet_aid_index_ranges_witness :
  component_applet sample_capfile <> None /\
  parse applet_component_compact (component_applet sample_capfile)
    = inr (Applet.mk 3 10 1
             [AppletEntry.mk [xa0; x00; x00; x00; x62; x01] 16]) /\
  (exists entry,
      nth_error [AppletEntry.mk [xa0; x00; x00; x00; x62; x01] 16]
        (Z.to_nat 0) = Some entry /\
      get_applet_aid sample_capfile 0 = inr (AppletEntry.AID entry)) /\
  get_applet_aid sample_capfile 5 = inl (ValueError (applet_index 5 1)) /\
  get_applet_aid sample_capfile 1 = inl IndexError.
Proof.
  assert (component_applet sample_capfile <> None) as H1
      by (cbn; discriminate).
  split; [exact H1|]. split; [reflexivity|].
  pose proof (fun index =>
    proj2 (get_applet_aid_index_ranges sample_capfile
      (Applet.mk 3 10 1 [AppletEntry.mk [xa0; x00; x00; x00; x62; x01] 16])
      index H1 eq_refl)) as H.
  split; [|split].
  - apply (proj1 (H 0)). cbn. lia.
  - apply (proj1 (proj2 (H 5))). cbn. lia.
  - apply (proj2 (proj2 (H 1))). reflexivity.
Defined.

(** X14. A negative index counts from the end, as on any Python list: with
    an Applet component that decodes, [get_applet_aid(index)] for
    [-count <= index < 0] is the AID of applet [count + index], so that
    [get_applet_aid(-1)] is the AID of the last applet; below [-count] the
    list raises [IndexError].  The check of the index never refuses a
    negative one. *)
Theorem get_applet_aid_negative_index
    (self : CapFile) (applet : Applet.t) (index : Z) :
  component_applet self <> None ->
  parse applet_component_compact (component_applet self) = inr applet ->
  index < 0 ->
  (- Applet.count applet <= index ->
   exists entry,
     nth_error (Applet.applets applet) (Z.to_nat (Applet.count applet + index))
       = Some entry /\
     get_applet_aid self index = inr (AppletEntry.AID entry))
  /\ (index < - Applet.count applet ->
      get_applet_aid self index = inl IndexError).
Proof.
  intros Hsome Hparse Hneg.
  destruct (applet_count _ _ Hparse) as [Hpos Hlen].
  unfold get_applet_aid. rewrite Hparse.
  destruct (component_applet self); [|congruence]. cbn [is_None].
  change (bind (inr applet) ?f) with (f applet). cbv beta.
  destruct (index >? Applet.count applet) eqn:E; [lia|].
  unfold getitem. destruct (index <? 0) eqn:E0; [|lia].
  replace (Z.of_nat (List.length (Applet.applets applet)))
    with (Applet.count applet) by lia.
  split; intros Hidx.
  - destruct (index + Applet.count applet <? 0) eqn:E1; [lia|].
    rewrite (Z.add_comm (Applet.count applet) index).
    destruct (nth_error (Applet.applets applet)
                (Z.to_nat (index + Applet.count applet))) as [entry|] eqn:N.
    + exists entry. split; reflexivity.
    + apply nth_error_None in N. lia.
  - destruct (index + Applet.count applet <? 0) eqn:E1; [reflexivity|lia].
Qed.

Lemma get_applet_aid_negative_index_witness :
  component_applet sample_capfile <> None /\
  parse applet_component_compact (component_applet sample_capfile)
    = inr (Applet.mk 3 10 1
             [AppletEntry.mk [xa0; x00; x00; x00; x62; x01] 16]) /\
  (exists entry,
      nth_error [AppletEntry.mk [xa0; x00; x00; x00; x62; x01] 16]
        (Z.to_nat (1 + -1)) = Some entry /\
      get_applet_aid sample_capfile (-1) = inr (AppletEntry.AID entry)) /\
  get_applet_aid sample_capfile (-2) = inl IndexError.
Proof.
  assert (component_applet sample_capfile <> None) as H1
      by (cbn; discriminate).
  split; [exact H1|]. split; [reflexivity|].
  pose proof (fun index =>
    get_applet_aid_negative_index sample_capfile
      (Applet.mk 3 10 1 [AppletEntry.mk [xa0; x00; x00; x00; x62; x01] 16])
      index H1 eq_refl) as H.
  split.
  - apply (proj1 (H (-1) ltac:(lia))). cbn. lia.
  - apply (proj2 (H (-2) ltac:(lia))). cbn. lia.
Defined.

(** ** More on [get_loadfile_aid] *)

(** X15. [get_loadfile_aid] on the wire form: when the Header component is
    the bytes of a Header record whose fields fit their widths, the
    package AID is returned if the magic is 0xDECAFFED and the [ValueError]
    with the magic is raised if not; tag, size, versions and flags are not
    looked at. *)
Theorem get_loadfile_aid_of_encoded (self : CapFile) (h : Header.t) :
  header_in_range h ->
  component_header self = Some (encode_header h) ->
  get_loadfile_aid self =
  if Header.magic h =? 0xDECAFFED
  then inr (Package.AID (Header.package h))
  else inl (ValueError (lacks_magic_number (Header.magic h))).
Proof.
  intros Hrange Hself.
  assert (parse header_component_compact (Some (encode_header h)) = inr h)
    as Hparse.
  { pose proof Hrange as (_ & _ & _ & _ & _ & _ & _ & _ & _ & Hname).
    rewrite parse_run, header_component_compact_run. unfold encode_header.
    destruct (Header.package_name h) as [name|] eqn:En.
    - rewrite <- (app_nil_r (encode_LV name)).
      repeat rewrite (app_assoc _ _ []).
      rewrite <- !app_assoc.
      rewrite (header_up_to_package_encode_run _ _ Hrange).
      rewrite LV_encode_run by assumption.
      destruct h. cbn in En. subst. reflexivity.
    - rewrite (header_up_to_package_encode_run _ _ Hrange).
      destruct h. cbn in En. subst. reflexivity. }
  unfold get_loadfile_aid. rewrite Hself, Hparse.
  change (bind (inr h) ?f) with (f h). cbv beta zeta.
  destruct (Z.eqb_spec (Header.magic h) 0) as [E|E].
  - rewrite E. reflexivity.
  - destruct (Header.magic h =? 0xDECAFFED); reflexivity.
Qed.

Lemma get_loadfile_aid_of_encoded_witness :
  header_in_range sample_named_header /\
  component_header
    (set_header (Some (encode_header sample_named_header)) sample_capfile)
    = Some (encode_header sample_named_header) /\
  get_loadfile_aid
    (set_header (Some (encode_header sample_named_header)) sample_capfile)
  = if Header.magic sample_named_header =? 0xDECAFFED
    then inr (Package.AID (Header.package sample_named_header))
    else inl (ValueError
                (lacks_magic_number (Header.magic sample_named_header))).
Proof.
  split; [exact sample_named_header_in_range|]. split; [reflexivity|].
  apply (get_loadfile_aid_of_encoded _ sample_named_header
           sample_named_header_in_range).
  reflexivity.
Defined.

(** X16. A Header component of fewer than 13 bytes, the empty one that
    construction accepts among them, makes [get_loadfile_aid] raise the
    decoder's [StreamError]: the magic is checked only after the whole
    record is decoded, so that a cut-off Header with a wrong magic is not
    reported as a wrong magic. *)
Theorem get_loadfile_aid_truncated (self : CapFile) (data : bytes) :
  component_header self = Some data ->
  (List.length data < 13)%nat ->
  get_loadfile_aid self = inl StreamError.
Proof.
  intros Hself Hlen. unfold get_loadfile_aid. rewrite Hself. clear Hself.
  do 13 (destruct data as [|? data]; [reflexivity|]).
  cbn [List.length] in Hlen. lia.
Qed.

Lemma get_loadfile_aid_truncated_witness :
  component_header
    (set_header (Some [x01; x00; x0f; xca; xfe]) sample_capfile)
    = Some [x01; x00; x0f; xca; xfe] /\
  (List.length [x01; x00; x0f; xca; xfe] < 13)%nat /\
  get_loadfile_aid
    (set_header (Some [x01; x00; x0f; xca; xfe]) sample_capfile)
  = inl StreamError.
Proof.
  split; [reflexivity|]. split; [cbn; lia|].
  apply (get_loadfile_aid_truncated _ [x01; x00; x0f; xca; xfe]).
  - reflexivity.
  - cbn; lia.
Defined.

(** ** What the accessors raise *)

(** A parser that fails only by reaching the end of the stream. *)
Lemma stream_read_error (n : nat) (s : bytes) (e : exn) :
  runStateT (stream_read n) s = inl e -> e = StreamError.
Proof.
  unfold stream_read. cbn [runStateT].
  destruct (List.length s <? n)%nat; intros H; [|discriminate H].
  injection H as <-. reflexivity.
Qed.

Lemma int_field_error (n : nat) (s : bytes) (e : exn) :
  runStateT (b <- stream_read n ;; ret (int_from_bytes b)) s = inl e ->
  e = StreamError.
Proof.
  rewrite run_bind.
  destruct (runStateT (stream_read n) s) as [e'|[v r]] eqn:E;
    [|discriminate].
  intros H. injection H as <-. eapply stream_read_error. eassumption.
Qed.

Lemma LV_error (s : bytes) (e : exn) :
  runStateT LV s = inl e -> e = StreamError.
Proof.
  rewrite LV_run. destruct s as [|n r]; [|destruct (holds_LV (n :: r))];
    intros H; try discriminate H; injection H as <-; reflexivity.
Qed.

Ltac field_error :=
  rewrite run_bind;
  match goal with
  | |- match runStateT ?c ?s with _ => _ end = inl _ -> _ =>
      let E := fresh "E" in
      destruct (runStateT c s) as [?|[? ?]] eqn:E;
      [ let H := fresh in
        intros H; injection H as <-;
        first [ eapply int_field_error; exact E
              | eapply LV_error; exact E ]
      | ]
  end.

Lemma applet_entry_error (s : bytes) (e : exn) :
  runStateT applet_entry s = inl e -> e = StreamError.
Proof.
  unfold applet_entry. field_error. unfold Int16ub. field_error.
  discriminate.
Qed.

Lemma Array_error (count : nat) :
  forall (s : bytes) (e : exn),
    runStateT (Array count applet_entry) s = inl e -> e = StreamError.
Proof.
  induction count as [|count IH]; intros s e; [discriminate|].
  cbn [Array]. rewrite run_bind.
  destruct (runStateT applet_entry s) as [e'|[x s1]] eqn:E.
  - intros H. injection H as <-. eapply applet_entry_error. eassumption.
  - rewrite run_bind.
    destruct (runStateT (Array count applet_entry) s1) as [e'|[xs s2]] eqn:E';
      [|discriminate].
    intros H. injection H as <-. eapply IH. eassumption.
Qed.

Lemma applet_parse_error (data : option bytes) (e : exn) :
  parse applet_component_compact data = inl e -> e = StreamError.
Proof.
  unfold parse.
  set (s := match data with Some b => b | None => [] end). clearbody s.
  destruct (runStateT applet_component_compact s) as [e'|[v r]] eqn:E;
    [|discriminate].
  intros H. injection H as <-. revert E.
  unfold applet_component_compact, Int8ub, Int16ub.
  do 3 field_error.
  rewrite run_bind.
  match goal with
  | |- match runStateT ?c ?s with _ => _ end = inl _ -> _ =>
      destruct (runStateT c s) as [?|[? ?]] eqn:E'; [|discriminate]
  end.
  intros H. injection H as <-. eapply Array_error. eassumption.
Qed.

Lemma header_parse_error (data : option bytes) (e : exn) :
  parse header_component_compact data = inl e -> e = StreamError.
Proof.
  unfold parse.
  set (s := match data with Some b => b | None => [] end). clearbody s.
  destruct (runStateT header_component_compact s) as [e'|[v r]] eqn:E;
    [|discriminate].
  intros H. injection H as <-. revert E.
  rewrite header_component_compact_run.
  destruct (runStateT header_up_to_package s) as [e2|[f rest]] eqn:E.
  - intros H. injection H as <-. revert E.
    unfold header_up_to_package, package_info, Int8ub, Int16ub, Int32ub.
    do 6 field_error. rewrite run_bind.
    match goal with
    | |- match runStateT ?c ?s with _ => _ end = inl _ -> _ =>
        destruct (runStateT c s) as [?|[? ?]] eqn:E'; [|discriminate]
    end.
    intros H. injection H as <-. revert E'.
    do 3 field_error. discriminate.
  - destruct (runStateT LV rest) as [?|[? ?]]; discriminate.
Qed.

(** X17. The exceptions of the two accessors, all of them.
    [get_loadfile_aid] raises nothing but the decoder's [StreamError] and
    the [ValueError] for a magic that is not 0xDECAFFED;
    [get_applet_aid(index)] raises nothing but the [ValueError] for the
    missing Applet component, the decoder's [StreamError], the
    [ValueError] with the index and the count, and the [IndexError] of
    the list. *)
Theorem accessor_errors (self : CapFile) (e : exn) :
  (get_loadfile_aid self = inl e ->
   e = StreamError \/
   exists magic, magic <> 0xDECAFFED /\ e = ValueError (lacks_magic_number magic))
  /\
  (forall index,
      get_applet_aid self index = inl e ->
      (e = ValueError lacks_applet_component /\ component_applet self = None)
      \/ e = StreamError
      \/ (exists count, count < index /\ e = ValueError (applet_index index count))
      \/ e = IndexError).
Proof.
  split.
  - unfold get_loadfile_aid.
    destruct (parse header_component_compact (component_header self))
      as [e'|header] eqn:E.
    + intros H. injection H as <-. left.
      eapply header_parse_error. eassumption.
    + change (bind (inr header) ?f) with (f header). cbv beta zeta.
      set (magic := if Header.magic header =? 0 then 0
                    else Header.magic header).
      destruct (Z.eqb_spec magic 0xDECAFFED) as [Em|Em]; cbn [negb];
        [discriminate|].
      intros H. injection H as <-. right. exists magic. split; [exact Em|].
      reflexivity.
  - intros index. unfold get_applet_aid.
    destruct (component_applet self) as [data|] eqn:Ea; cbn [is_None].
    + destruct (parse applet_component_compact (Some data))
        as [e'|applet] eqn:E.
      * intros H. injection H as <-. right. left.
        eapply applet_parse_error. eassumption.
      * change (bind (inr applet) ?f) with (f applet). cbv beta.
        destruct (index >? Applet.count applet) eqn:Ei.
        -- intros H. injection H as <-. right. right. left.
           exists (Applet.count applet). split; [lia | reflexivity].
        -- unfold getitem.
           repeat match goal with
                  | |- context [if ?c then _ else _] => destruct c
                  | |- context [nth_error ?l ?n] => destruct (nth_error l n)
                  end;
             intros H; try discriminate H; injection H as <-;
             right; right; right; reflexivity.
    + intros H. injection H as <-. left. split; reflexivity.
Qed.

Lemma accessor_errors_witness :
  (get_loadfile_aid capfile_wrong_magic
     = inl (ValueError (lacks_magic_number 0xCAFEFFED)) /\
   (ValueError (lacks_magic_number 0xCAFEFFED) = StreamError \/
    exists magic,
      magic <> 0xDECAFFED /\
      ValueError (lacks_magic_number 0xCAFEFFED)
        = ValueError (lacks_magic_number magic)))
  /\
  (get_applet_aid sample_capfile 1 = inl IndexError /\
   ((IndexError = ValueError lacks_applet_component /\
     component_applet sample_capfile = None)
    \/ IndexError = StreamError
    \/ (exists count,
           count < 1 /\ IndexError = ValueError (applet_index 1 count))
    \/ IndexError = IndexError)).
Proof.
  split.
  - split; [reflexivity|].
    apply (proj1 (accessor_errors capfile_wrong_magic _)). reflexivity.
  - split; [reflexivity|].
    apply (proj2 (accessor_errors sample_capfile _) 1). reflexivity.
Defined.

(** ** What construction depends on *)

Lemma read_error (z : ZipFile) (name : string) (e : exn) :
  read z name = inl e -> e = KeyError.
Proof.
  induction z as [|[n d] z IH]; cbn [read].
  - intros H. injection H as <-. reflexivity.
  - destruct (read z name) as [e'|later]; [|discriminate].
    destruct (String.eqb n name); [discriminate|].
    intros H. injection H as <-. reflexivity.
Qed.

Lemma is_component_name_matches (c : Component) (filename : string) :
  matches c filename = true -> is_component_name filename = true.
Proof.
  intros H. unfold is_component_name. apply existsb_exists.
  exists c. split; [destruct c; cbn; tauto | assumption].
Qed.

Lemma not_component_name (c : Component) (filename : string) :
  is_component_name filename = false -> matches c filename = false.
Proof.
  intros H. destruct (matches c filename) eqn:M; [|reflexivity].
  apply is_component_name_matches in M. congruence.
Qed.

Lemma read_components_only (cap : ZipFile) (name : string) :
  is_component_name name = true ->
  read (components_only cap) name = read cap name.
Proof.
  intros Hname. induction cap as [|[n d] cap IH]; [reflexivity|].
  cbn [components_only filter fst read].
  fold (components_only cap).
  destruct (is_component_name n) eqn:En.
  - cbn [read]. rewrite IH. reflexivity.
  - rewrite IH. destruct (read cap name) as [e|later] eqn:R; [|reflexivity].
    destruct (String.eqb_spec n name) as [->|_]; [congruence|].
    f_equal. eapply read_error. eassumption.
Qed.

Lemma namelist_components_only (cap : ZipFile) :
  namelist (components_only cap) = filter is_component_name (namelist cap).
Proof.
  induction cap as [|[n d] cap IH]; [reflexivity|].
  unfold components_only, namelist in *. cbn [filter map fst].
  destruct (is_component_name n); cbn [map fst]; rewrite IH; reflexivity.
Qed.

Lemma last_match_components_only (cap : ZipFile) (c : Component) :
  last_match c (namelist (components_only cap))
  = last_match c (namelist cap).
Proof.
  rewrite namelist_components_only.
  induction (namelist cap) as [|n names IH]; [reflexivity|].
  cbn [filter last_match].
  destruct (is_component_name n) eqn:En.
  - cbn [last_match]. rewrite IH. reflexivity.
  - rewrite IH, (not_component_name c n En).
    destruct (last_match c names); reflexivity.
Qed.

Lemma CapFile_ext (s1 s2 : CapFile) :
  (forall c, slot c s1 = slot c s2) -> s1 = s2.
Proof.
  intros H. destruct s1, s2.
  pose proof (H COMPONENT_Header). pose proof (H COMPONENT_Directory).
  pose proof (H COMPONENT_Applet). pose proof (H COMPONENT_Import).
  pose proof (H COMPONENT_ConstantPool). pose proof (H COMPONENT_Class).
  pose proof (H COMPONENT_Method). pose proof (H COMPONENT_StaticField).
  pose proof (H COMPONENT_ReferenceLocation). pose proof (H COMPONENT_Export).
  pose proof (H COMPONENT_Descriptor). pose proof (H COMPONENT_Debug).
  cbn in *. congruence.
Qed.

(** Construction is a function of what classification finds. *)
Lemma CapFile_init_classified (cap cap' : ZipFile) :
  (forall c, classified cap c = classified cap' c) ->
  CapFile_init cap = CapFile_init cap'.
Proof.
  intros H.
  destruct (CapFile_init_eq cap) as (self & Hslot & ->).
  destruct (CapFile_init_eq cap') as (self' & Hslot' & ->).
  assert (self = self') as ->; [|reflexivity].
  apply CapFile_ext. intros c. rewrite Hslot, Hslot'. apply H.
Qed.

(** X18. Construction looks at nothing but the component entries: taking
    out of the archive every entry whose name matches no component changes
    neither the object constructed nor the exception raised. *)
Theorem CapFile_init_ignores_other_entries (cap : ZipFile) :
  CapFile_init (components_only cap) = CapFile_init cap.
Proof.
  apply CapFile_init_classified. intros c. unfold classified.
  rewrite last_match_components_only.
  destruct (last_match c (namelist cap)) as [n|] eqn:L; [|reflexivity].
  apply last_match_Some in L as [_ Hm].
  unfold entry_data. rewrite read_components_only; [reflexivity|].
  eapply is_component_name_matches. eassumption.
Qed.

Lemma classified_In (cap : ZipFile) (c : Component) (d : bytes) :
  classified cap c = Some d ->
  exists n, In (n, d) cap /\ matches c n = true.
Proof.
  unfold classified.
  destruct (last_match c (namelist cap)) as [n|] eqn:L; [|discriminate].
  apply last_match_Some in L as [_ Hm]. unfold entry_data.
  destruct (read cap n) as [e|data] eqn:R; [discriminate|].
  intros H. injection H as ->. exists n. split; [|assumption].
  clear Hm. induction cap as [|[n' d'] cap IH]; [discriminate R|].
  cbn [read] in R. destruct (read cap n) as [e|later].
  - destruct (String.eqb_spec n' n) as [->|_]; [|discriminate R].
    injection R as ->. left. reflexivity.
  - injection R as ->. right. apply IH. reflexivity.
Qed.

Lemma classified_unique (cap : ZipFile) (c : Component) (n : string)
    (d : bytes) :
  one_entry_per_component cap ->
  In (n, d) cap -> matches c n = true -> classified cap c = Some d.
Proof.
  intros Hone Hin Hm.
  destruct (classified cap c) as [d'|] eqn:E.
  - apply classified_In in E as (n' & Hin' & Hm').
    specialize (Hone c (n, d) (n', d') Hin Hin' Hm Hm').
    injection Hone as _ ->. reflexivity.
  - exfalso.
    rewrite (proj1 (classified_None cap c) E n) in Hm; [discriminate Hm|].
    unfold namelist. apply in_map_iff. exists (n, d). split; [reflexivity|].
    assumption.
Qed.

(** X19. When no component has two entries, construction does not depend
    on the order of the entries: two archives with the same entries give
    the same object, or raise the same exception. *)
Theorem CapFile_init_order_irrelevant (cap cap' : ZipFile) :
  one_entry_per_component cap ->
  (forall e, In e cap <-> In e cap') ->
  CapFile_init cap = CapFile_init cap'.
Proof.
  intros Hone Hsame.
  assert (one_entry_per_component cap') as Hone'.
  { intros c e1 e2 H1 H2. apply Hone; apply Hsame; assumption. }
  apply CapFile_init_classified. intros c.
  destruct (classified cap c) as [d|] eqn:E.
  - apply classified_In in E as (n & Hin & Hm). symmetry.
    eapply classified_unique; [assumption | apply Hsame; eassumption
                              | assumption].
  - destruct (classified cap' c) as [d'|] eqn:E'; [|reflexivity].
    apply classified_In in E' as (n & Hin & Hm).
    rewrite (classified_unique cap c n d' Hone) in E;
      [discriminate E | apply Hsame; assumption | assumption].
Qed.

Lemma sample_archive_one_entry_per_component :
  one_entry_per_component sample_archive.
Proof.
  intros c e1 e2 H1 H2.
  cbn in H1, H2.
  repeat (destruct H1 as [<-|H1]);
    try contradiction;
    repeat (destruct H2 as [<-|H2]);
    try contradiction; try reflexivity;
    destruct c; vm_compute; intros; discriminate.
Defined.

Lemma CapFile_init_order_irrelevant_witness :
  one_entry_per_component sample_archive /\
  (forall e, In e sample_archive <-> In e (rev sample_archive)) /\
  CapFile_init sample_archive = CapFile_init (rev sample_archive).
Proof.
  split; [exact sample_archive_one_entry_per_component|].
  split; [intros e; apply in_rev|].
  apply (CapFile_init_order_irrelevant sample_archive (rev sample_archive)).
  - exact sample_archive_one_entry_per_component.
  - intros e. apply in_rev.
Defined.
